(** * Escape the Qubits: the gameplay state machine of [escape_qubits.py]

    A shallow embedding of the two classes of the game, [Qubit] and
    [Game], and the properties of its state machine.

    - Python's [float] is IEEE 754 binary64 with round-to-nearest-even,
      which is what Rocq's primitive [float] implements: times, lifetimes
      and the timer are primitive floats and every comparison and
      subtraction below is the machine operation.
    - Grid coordinates are Python integers: [Z].
    - [time.time()] is an input of each operation ([now]).
    - The [random] module is an input as well: every call of
      [random.randrange] and [random.random] reads a raw integer supplied
      by the caller and reduces it into the range the Python function
      returns.
    - The pygame window, fonts, event polling and drawing are not modelled;
      the methods that only draw read the state and never write it. *)

From Stdlib Require Import ZArith List Bool Lia Floats.
From Stdlib Require Uint63 String.
Import ListNotations.
Import String.StringSyntax.
Delimit Scope string_scope with string.
Set Warnings "-inexact-float".

Local Open Scope Z_scope.

(** ** Configuration (module constants of the source) *)

Definition GRID_COLS : Z := 10.
Definition GRID_ROWS : Z := 10.
Definition TOTAL_TIME : float := 45.0%float.
Definition MAX_ACTIVE_QUBITS : nat := 6.
Definition SPAWN_INTERVAL_MIN : float := 0.4%float.
Definition SPAWN_INTERVAL_MAX : float := 1.1%float.
Definition QUBIT_LIFETIME : float := 1.2%float.

(** ** The Python runtime the game relies on *)

(** Exceptions the modelled expressions can raise. *)
Inductive exn : Type :=
| ZeroDivisionError
| ValueError
| OverflowError.

Inductive result (A : Type) : Type :=
| Ok (a : A)
| Raise (e : exn).
Arguments Ok {A} a.
Arguments Raise {A} e.

Definition bind {A B : Type} (r : result A) (k : A -> result B) : result B :=
  match r with
  | Ok a => k a
  | Raise e => Raise e
  end.

Notation "x <- r ;; k" := (bind r (fun x => k))
  (at level 61, r at next level, right associativity).

(** [a / b] on floats: Python raises where IEEE would return an infinity
    or a NaN. *)
Definition py_div (a b : float) : result float :=
  if (b =? 0)%float then Raise ZeroDivisionError else Ok (a / b)%float.

(** [min(a, b)] and [max(a, b)]: the first argument is kept unless the
    second compares strictly below (above) it. *)
Definition py_min (a b : float) : float := if (b <? a)%float then b else a.
Definition py_max (a b : float) : float := if (a <? b)%float then b else a.

(** [int(x)] for a float [x]: truncation toward zero, [ValueError] on a
    NaN and [OverflowError] on an infinity. *)
Definition py_int (x : float) : result Z :=
  match Prim2SF x with
  | S754_zero _ => Ok 0
  | S754_finite s m e => Ok (cond_Zopp s (Z.shiftl (Z.pos m) e))
  | S754_nan => Raise ValueError
  | S754_infinity _ => Raise OverflowError
  end.

(** [random.randrange(n)]: some integer of [0, n). *)
Definition randrange (n raw : Z) : Z := raw mod n.

(** [random.random()]: [k / 2^53] for some [k] of [0, 2^53). *)
Definition random (raw : Z) : float :=
  (of_uint63 (Uint63.of_Z (raw mod 9007199254740992)) / 9007199254740992)%float.

(** [random.uniform(a, b)] is [a + (b - a) * random()]. *)
Definition uniform (a b : float) (raw : Z) : float :=
  (a + (b - a) * random raw)%float.

(** ** class Qubit *)

(** A grid tile, [(col, row)]. *)
Definition tile : Type := Z * Z.

Definition tile_eqb (a b : tile) : bool :=
  (fst a =? fst b) && (snd a =? snd b).

Record Qubit : Type := mkQubit {
  grid_pos : tile;
  spawn_time : float;
  lifetime : float
}.

(** [Qubit(grid_pos, spawn_time)]: the constructor called with [lifetime]
    left to its default, as [spawn_qubit] calls it. *)
Definition new_qubit (pos : tile) (t : float) : Qubit :=
  {| grid_pos := pos; spawn_time := t; lifetime := QUBIT_LIFETIME |}.

Definition age (q : Qubit) (now : float) : float :=
  (now - spawn_time q)%float.

Definition is_alive (q : Qubit) (now : float) : bool :=
  (age q now <? lifetime q)%float.

Definition alpha (q : Qubit) (now : float) : result Z :=
  let a := age q now in
  r <- py_div a (lifetime q) ;;
  let frac := py_max 0 (py_min 1 r) in
  py_int (255 * (1 - frac))%float.

(** ** class Game *)

Record Game : Type := mkGame {
  start : tile;
  goal : tile;
  player : tile;
  qubits : list Qubit;
  start_time : float;
  next_spawn_time : float;
  running : bool;
  win : bool;
  lose : bool;
  pause : bool
}.

Definition set_player (g : Game) (p : tile) : Game :=
  {| start := start g; goal := goal g; player := p; qubits := qubits g;
     start_time := start_time g; next_spawn_time := next_spawn_time g;
     running := running g; win := win g; lose := lose g; pause := pause g |}.

Definition set_qubits (g : Game) (qs : list Qubit) : Game :=
  {| start := start g; goal := goal g; player := player g; qubits := qs;
     start_time := start_time g; next_spawn_time := next_spawn_time g;
     running := running g; win := win g; lose := lose g; pause := pause g |}.

Definition set_next_spawn_time (g : Game) (t : float) : Game :=
  {| start := start g; goal := goal g; player := player g; qubits := qubits g;
     start_time := start_time g; next_spawn_time := t;
     running := running g; win := win g; lose := lose g; pause := pause g |}.

(** [self.lose = True; self.running = False] *)
Definition set_lose (g : Game) : Game :=
  {| start := start g; goal := goal g; player := player g; qubits := qubits g;
     start_time := start_time g; next_spawn_time := next_spawn_time g;
     running := false; win := win g; lose := true; pause := pause g |}.

(** [self.win = True; self.running = False] *)
Definition set_win (g : Game) : Game :=
  {| start := start g; goal := goal g; player := player g; qubits := qubits g;
     start_time := start_time g; next_spawn_time := next_spawn_time g;
     running := false; win := true; lose := lose g; pause := pause g |}.

(** [reset]: [now] is the value of [time.time()], [u] the raw draw behind
    [random.uniform]. *)
Definition reset (g : Game) (now : float) (u : Z) : Game :=
  {| start := start g; goal := goal g;
     player := start g;
     qubits := [];
     start_time := now;
     next_spawn_time :=
       (now + uniform SPAWN_INTERVAL_MIN SPAWN_INTERVAL_MAX u)%float;
     running := true; win := false; lose := false; pause := false |}.

(** [Game.__init__]: the two fixed tiles, then [reset]. The fields [reset]
    overwrites have no value before it. *)
Definition new_game (now : float) (u : Z) : Game :=
  reset {| start := (0, GRID_ROWS - 1); goal := (GRID_COLS - 1, 0);
           player := (0, 0); qubits := [];
           start_time := 0%float; next_spawn_time := 0%float;
           running := false; win := false; lose := false; pause := false |}
        now u.

(** [any(q.grid_pos == pos and q.is_alive(now) for q in qs)] *)
Definition occupied (qs : list Qubit) (pos : tile) (now : float) : bool :=
  existsb (fun q => tile_eqb (grid_pos q) pos && is_alive q now) qs.

(** The [while tries < 50] loop of [spawn_qubit]. Every iteration either
    returns or adds one to [tries], so [fuel] is [50 - tries]; iteration
    number [tries] reads the raw draws [draws tries] for its two calls of
    [randrange]. *)
Fixpoint spawn_loop (g : Game) (now : float) (draws : nat -> Z * Z)
  (fuel tries : nat) : Game :=
  match fuel with
  | O => g
  | S fuel' =>
      let c := randrange GRID_COLS (fst (draws tries)) in
      let r := randrange GRID_ROWS (snd (draws tries)) in
      if tile_eqb (c, r) (goal g) then
        spawn_loop g now draws fuel' (S tries)
      else
        let candidate := (c, r) in
        if occupied (qubits g) candidate now then
          spawn_loop g now draws fuel' (S tries)
        else
          set_qubits g (qubits g ++ [new_qubit candidate now])
  end.

Definition spawn_qubit (g : Game) (now : float) (draws : nat -> Z * Z) : Game :=
  if (MAX_ACTIVE_QUBITS <=? length (qubits g))%nat then g
  else spawn_loop g now draws 50 0.

Definition in_bounds (p : tile) : bool :=
  (0 <=? fst p) && (fst p <? GRID_COLS) && (0 <=? snd p) && (snd p <? GRID_ROWS).

(** [try_move]: [now] is the [time.time()] read after the move is
    committed. *)
Definition try_move (g : Game) (dx dy : Z) (now : float) : Game :=
  if negb (running g && negb (pause g)) then g
  else
    let new_c := fst (player g) + dx in
    let new_r := snd (player g) + dy in
    if in_bounds (new_c, new_r) then
      let g1 := set_player g (new_c, new_r) in
      if occupied (qubits g1) (player g1) now then set_lose g1
      else if tile_eqb (player g1) (goal g1) then set_win g1
      else g1
    else g.

(** [update]: [now] is [time.time()], [draws] feeds [spawn_qubit] and [u]
    is the raw draw behind [random.uniform]. *)
Definition update (g : Game) (now : float) (draws : nat -> Z * Z) (u : Z) : Game :=
  let g1 :=
    if (next_spawn_time g <=? now)%float && running g then
      set_next_spawn_time (spawn_qubit g now draws)
        (now + uniform SPAWN_INTERVAL_MIN SPAWN_INTERVAL_MAX u)%float
    else g in
  let g2 := set_qubits g1 (filter (fun q => is_alive q now) (qubits g1)) in
  if existsb (fun q => tile_eqb (grid_pos q) (player g2)
                       && is_alive q now && running g2) (qubits g2)
  then set_lose g2
  else
    let elapsed := (now - start_time g2)%float in
    let time_left := (TOTAL_TIME - elapsed)%float in
    if (time_left <=? 0)%float && running g2 then set_lose g2 else g2.

(** ** Phases and reachable states *)

Inductive Phase : Type := Playing | Won | Lost.

(** The phase the three flags encode; no phase when they disagree. *)
Definition phase (g : Game) : option Phase :=
  match running g, win g, lose g with
  | true, false, false => Some Playing
  | false, true, false => Some Won
  | false, false, true => Some Lost
  | _, _, _ => None
  end.

(** States of a run: the game as constructed, then any sequence of
    [try_move], [update] and [reset], at any times and draws. *)
Inductive reachable : Game -> Prop :=
| reach_init (now : float) (u : Z) : reachable (new_game now u)
| reach_try_move (g : Game) (dx dy : Z) (now : float) :
    reachable g -> reachable (try_move g dx dy now)
| reach_update (g : Game) (now : float) (draws : nat -> Z * Z) (u : Z) :
    reachable g -> reachable (update g now draws u)
| reach_reset (g : Game) (now : float) (u : Z) :
    reachable g -> reachable (reset g now u).

(** A sequence of [update] calls, each with its own clock reading and
    draws. *)
Definition update_all (g : Game) (calls : list (float * (nat -> Z * Z) * Z)) : Game :=
  fold_left (fun g c => update g (fst (fst c)) (snd (fst c)) (snd c)) calls g.

(** ** Vocabulary of the specification *)

(** The tile iteration [i] of the spawn loop draws. *)
Definition drawn (draws : nat -> Z * Z) (i : nat) : tile :=
  (randrange GRID_COLS (fst (draws i)), randrange GRID_ROWS (snd (draws i))).

(** A drawn tile is rejected when it is the goal or an alive hazard stands
    on it. *)
Definition rejected (g : Game) (now : float) (t : tile) : bool :=
  tile_eqb t (goal g) || occupied (qubits g) t now.

(** "The inserted hazard has a random lifetime": two runs of the spawn
    from the same state and time, on different draws, insert hazards of
    different lifetimes. *)
Definition spawn_lifetime_varies : Prop :=
  exists g now draws1 draws2 q1 q2,
    qubits (spawn_qubit g now draws1) = qubits g ++ [q1] /\
    qubits (spawn_qubit g now draws2) = qubits g ++ [q2] /\
    lifetime q1 <> lifetime q2.

(** [clamp(x, lo, hi)] *)
Definition clamp (x lo hi : float) : float := py_max lo (py_min hi x).

(** The fade of the specification, in its words:
    [fadeAlpha = clamp(1 - age/lifetime, 0, 1)], "no error conditions". *)
Definition spec_fadeAlpha (q : Qubit) (now : float) : float :=
  clamp (1 - age q now / lifetime q)%float 0%float 1%float.

(** ** Intermediate and example states *)

(** The state after the spawn step of [update]. *)
Definition after_spawn (g : Game) (now : float) (draws : nat -> Z * Z) (u : Z) : Game :=
  if (next_spawn_time g <=? now)%float && running g then
    set_next_spawn_time (spawn_qubit g now draws)
      (now + uniform SPAWN_INTERVAL_MIN SPAWN_INTERVAL_MAX u)%float
  else g.

(** A generator whose every pair of raw draws is [(c, r)]. *)
Definition same_draw (c r : Z) : nat -> Z * Z := fun _ => (c, r).

(** A hazard born at time 0 and a game holding it. *)
Definition old_hazard : Qubit := new_qubit (3, 4) 0%float.

Definition haunted : Game := set_qubits (new_game 0 0) [old_hazard].

(** A hazard that would never live. *)
Definition stillborn : Qubit :=
  {| grid_pos := (0, 0); spawn_time := 0%float; lifetime := 0%float |}.

(** The player one tile left of the goal, and a hazard spawned on the goal
    at time 0. *)
Definition guarded_goal : Game :=
  set_qubits (set_player (new_game 0 0) (8, 0)) [new_qubit (9, 0) 0%float].

(** Six hazards spawned on six tiles at time 0. *)
Definition crowded : Game :=
  set_qubits (new_game 0 0)
    (map (fun c => new_qubit (c, 5) 0%float) [0; 1; 2; 3; 4; 5]).

(** A hazard spawned under the player of a fresh game: the run is lost,
    with [lose] alone set. *)
Definition ambushed : Game := update (new_game 0 0) 1%float (same_draw 0 9) 0.

(** ** Well-placed hazards *)

(** What [spawn_qubit] guarantees of a hazard it builds: a tile of the
    grid other than the goal, and the default lifetime. *)
Definition well_placed (g : Game) (q : Qubit) : Prop :=
  in_bounds (grid_pos q) = true /\ grid_pos q <> goal g /\
  lifetime q = QUBIT_LIFETIME.

(** A sequence of [try_move] calls, all at the clock reading [now]. *)
Definition walk (g : Game) (moves : list (Z * Z)) (now : float) : Game :=
  fold_left (fun g m => try_move g (fst m) (snd m) now) moves g.

(** A fresh game walked nine tiles right and eight up: the player is one
    tile below the goal. *)
Definition below_goal : Game :=
  walk (new_game 0 0) (repeat (1, 0) 9 ++ repeat (0, -1) 8) 0%float.

(** A hazard forced onto the start tile of a fresh game. *)
Definition cornered : Game := set_qubits (new_game 0 0) [new_qubit (0, 9) 0%float].

(** ** Input and the main loop *)

(** The keys [handle_input] tells apart; [K_other] is any other key. *)
Inductive key : Type :=
| K_ESCAPE | K_q | K_r | K_LEFT | K_RIGHT | K_UP | K_DOWN | K_other.

(** The events of [pygame.event.get()] as [handle_input] reads them: the
    window's close request, a key press, anything else. *)
Inductive event : Type :=
| QUIT
| KEYDOWN (k : key)
| other_event.

(** Code that may call [sys.exit]: it goes on with a state, or the
    process ends with an exit code. *)
Inductive outcome : Type :=
| Continue (g : Game)
| Exit (code : Z).

(** The body of the [for event in pygame.event.get()] loop. [now] and [u]
    are the clock reading and the raw draw the methods called for this
    event would read. *)
Definition handle_event (g : Game) (ev : event) (now : float) (u : Z) : outcome :=
  match ev with
  | QUIT => Exit 0
  | KEYDOWN k =>
      match k with
      | K_ESCAPE | K_q => Exit 0
      | _ =>
          if win g || lose g then
            match k with
            | K_r => Continue (reset g now u)
            | _ => Continue g
            end
          else
            match k with
            | K_LEFT => Continue (try_move g (-1) 0 now)
            | K_RIGHT => Continue (try_move g 1 0 now)
            | K_UP => Continue (try_move g 0 (-1) now)
            | K_DOWN => Continue (try_move g 0 1 now)
            | _ => Continue g
            end
      end
  | other_event => Continue g
  end.

Fixpoint handle_input (g : Game) (events : list (event * float * Z)) : outcome :=
  match events with
  | [] => Continue g
  | (ev, now, u) :: rest =>
      match handle_event g ev now u with
      | Continue g' => handle_input g' rest
      | Exit code => Exit code
      end
  end.

(** What one iteration of the loop of [run] reads: the event queue with
    the readings of each event, then the clock, the spawn draws and the
    interval draw of [update]. *)
Record frame_input : Type := mkFrame {
  frame_events : list (event * float * Z);
  frame_now : float;
  frame_draws : nat -> Z * Z;
  frame_u : Z
}.

(** One iteration of [while True] in [run], drawing left out: the input,
    then [update] when the game is running. *)
Definition frame (g : Game) (f : frame_input) : outcome :=
  match handle_input g (frame_events f) with
  | Continue g1 =>
      Continue (if running g1
                then update g1 (frame_now f) (frame_draws f) (frame_u f)
                else g1)
  | Exit code => Exit code
  end.

(** The iterations of [run] on the given frames: the state after the
    last of them, or the exit that cut them short. *)
Fixpoint run_frames (g : Game) (frames : list frame_input) : outcome :=
  match frames with
  | [] => Continue g
  | f :: rest =>
      match frame g f with
      | Continue g' => run_frames g' rest
      | Exit code => Exit code
      end
  end.

(** The events that end the process: the close request, Escape and Q. *)
Definition is_quit (ev : event) : bool :=
  match ev with
  | QUIT | KEYDOWN K_ESCAPE | KEYDOWN K_q => true
  | _ => false
  end.

Definition is_restart (ev : event) : bool :=
  match ev with
  | KEYDOWN K_r => true
  | _ => false
  end.

(** The events of a queue, without their readings. *)
Definition events_of (events : list (event * float * Z)) : list event :=
  map (fun e => fst (fst e)) events.

(** A frame in which the right arrow is pressed once, and one in which
    the window is closed after a key press. *)
Definition right_frame : frame_input :=
  mkFrame [(KEYDOWN K_RIGHT, 0.5%float, 0)] 1%float (same_draw 3 4) 0.

Definition closing_frame : frame_input :=
  mkFrame [(KEYDOWN K_UP, 2%float, 0); (QUIT, 2%float, 0);
           (KEYDOWN K_DOWN, 2%float, 0)] 2%float (same_draw 3 4) 0.

(** The events of all frames. *)
Definition all_events (frames : list frame_input) : list event :=
  flat_map (fun f => events_of (frame_events f)) frames.

Definition event_eq_dec (a b : event) : {a = b} + {a <> b}.
Proof. repeat decide equality. Defined.

(** How often an event occurs in a queue. *)
Definition presses (ev : event) (events : list (event * float * Z)) : nat :=
  count_occ event_eq_dec (events_of events) ev.

(** Nine presses of the right arrow, then nine of the up arrow, all read
    at time 1. *)
Definition direct_keys : list (event * float * Z) :=
  map (fun ev => (ev, 1%float, 0))
      (repeat (KEYDOWN K_RIGHT) 9 ++ repeat (KEYDOWN K_UP) 9).

(** A running game without hazards whose player stands on [(c, r)]. *)
Definition on_the_way (g : Game) (c r : Z) : Prop :=
  qubits g = [] /\ goal g = (GRID_COLS - 1, 0) /\
  running g = true /\ win g = false /\ lose g = false /\ pause g = false /\
  player g = (c, r).

(** A press of the right or of the up arrow. *)
Definition toward_goal (ev : event) : Prop :=
  ev = KEYDOWN K_RIGHT \/ ev = KEYDOWN K_UP.

(** ** Drawing *)

Definition TILE_SIZE : Z := 64.
Definition HUD_HEIGHT : Z := 80.
Definition SCREEN_WIDTH : Z := GRID_COLS * TILE_SIZE.
Definition SCREEN_HEIGHT : Z := GRID_ROWS * TILE_SIZE + HUD_HEIGHT.
Definition PLAYER_COLOR : Z * Z * Z := (250, 250, 250).

(** An [int] operand of a float operation, converted as Python does. The
    conversion is the exact one for the integers of the source, all far
    below [2^53]. *)
Definition float_of_int (n : Z) : float :=
  if n <? 0 then (- of_uint63 (Uint63.of_Z (- n)))%float
  else of_uint63 (Uint63.of_Z n).

Definition grid_to_pixel (pos : tile) : Z * Z :=
  let (col, row) := pos in
  (col * TILE_SIZE, row * TILE_SIZE).

(** A call of [pygame.draw.circle(screen, color, center, radius, width)];
    [width] 0, the default, fills the circle. *)
Record circle : Type := mkCircle {
  circle_color : Z * Z * Z;
  circle_center : Z * Z;
  circle_radius : Z;
  circle_width : Z
}.

(** [draw_player]: the circles it draws, in order. *)
Definition draw_player (g : Game) : result (list circle) :=
  let (x, y) := grid_to_pixel (player g) in
  let cx := x + TILE_SIZE / 2 in
  let cy := y + TILE_SIZE / 2 in
  radius <- py_int (float_of_int TILE_SIZE * 0.36)%float ;;
  let eye_offset := radius / 3 in
  Ok [ mkCircle PLAYER_COLOR (cx, cy) radius 0;
       mkCircle (60, 60, 60) (cx - eye_offset, cy - 6) 5 0;
       mkCircle (60, 60, 60) (cx + eye_offset, cy - 6) 5 0;
       mkCircle (200, 200, 255) (cx, cy) radius 3 ].

(** The pixels a circle can touch lie in the square around its centre. *)
Definition circle_within (c : circle) (x0 y0 x1 y1 : Z) : Prop :=
  x0 <= fst (circle_center c) - circle_radius c /\
  fst (circle_center c) + circle_radius c <= x1 /\
  y0 <= snd (circle_center c) - circle_radius c /\
  snd (circle_center c) + circle_radius c <= y1.

(** [draw_hud]: the whole seconds shown after "Time left:", and the width
    in pixels of the green part of the timer bar. *)
Definition hud_time_left (g : Game) (now : float) : float :=
  let elapsed := (now - start_time g)%float in
  py_max 0 (TOTAL_TIME - elapsed)%float.

Definition hud_seconds (g : Game) (now : float) : result Z :=
  py_int (hud_time_left g now).

Definition hud_bar_fill (g : Game) (now : float) : result Z :=
  let bar_x := 170 in
  let bar_w := SCREEN_WIDTH - bar_x - 20 in
  r <- py_div (hud_time_left g now) TOTAL_TIME ;;
  let frac := py_max 0 (py_min 1 r) in
  py_int (float_of_int bar_w * frac)%float.

(** [draw_end_screen]: the banner, the prompt under it and the colour of
    the banner. *)
Definition draw_end_screen (g : Game) : String.string * String.string * (Z * Z * Z) :=
  if win g then
    ("You Win! 🎉"%string, "Press R to play again"%string, (40, 160, 40))
  else
    ("Game Over 💥"%string, "Press R to try again"%string, (200, 40, 40)).

(** What [run] shows over the board: [draw_end_screen] is called when the
    game is not running. *)
Definition end_screen (g : Game) : option (String.string * String.string * (Z * Z * Z)) :=
  if negb (running g) then Some (draw_end_screen g) else None.

(** The alpha values of [draw_qubits]: for every hazard alive at [now],
    in list order, its tile, the alpha of the outer glow,
    [min(120, alpha // 2 + 60)], and the alpha of the inner core, [alpha].
    The hues, which go through [colorsys], and the pixel geometry are left
    out. An exception raised by [alpha] ends the loop. *)
Fixpoint draw_qubits_alphas (qs : list Qubit) (now : float)
  : result (list (tile * Z * Z)) :=
  match qs with
  | [] => Ok []
  | q :: rest =>
      if negb (is_alive q now) then draw_qubits_alphas rest now
      else
        a <- alpha q now ;;
        let glow_alpha := Z.min 120 (a / 2 + 60) in
        let core_alpha := a in
        drawn_rest <- draw_qubits_alphas rest now ;;
        Ok ((grid_pos q, glow_alpha, core_alpha) :: drawn_rest)
  end.

(** ** Facts about binary64 arithmetic

    Derived from the specification of the primitive operations
    ([FloatAxioms]) over [spec_float]. *)

Module FloatFacts.

(** Neither an infinity nor a NaN. *)
Definition SFfinite (x : spec_float) : bool :=
  match x with
  | S754_zero _ | S754_finite _ _ _ => true
  | _ => false
  end.

(** At most [+0]. *)
Definition SFnonpos (x : spec_float) : Prop :=
  SFleb x (S754_zero false) = true.

Definition shr_nonneg (mrs : shr_record) : Prop := 0 <= shr_m mrs.

Lemma SFcompare_antisym (x y : spec_float) :
  SFcompare y x = option_map CompOpp (SFcompare x y).
Proof.
  destruct x as [sx|sx| |sx mx ex], y as [sy|sy| |sy my ey]; simpl;
    try reflexivity;
    try (destruct sx; reflexivity); try (destruct sy; reflexivity);
    try (destruct sx, sy; reflexivity).
  assert (Hm : Pos.compare_cont Eq my mx = CompOpp (Pos.compare_cont Eq mx my))
    by (rewrite (Pos.compare_cont_antisym mx my Eq); reflexivity).
  destruct sx, sy; simpl; try reflexivity;
    rewrite (Z.compare_antisym ex ey), Hm;
    destruct (ex ?= ey); reflexivity.
Qed.

(** [x >= y] excludes [x < y]. *)
Lemma leb_not_ltb (x y : float) :
  (y <=? x)%float = true -> (x <? y)%float = false.
Proof.
  rewrite FloatAxioms.leb_spec, FloatAxioms.ltb_spec. unfold SFleb, SFltb.
  rewrite (SFcompare_antisym (Prim2SF x) (Prim2SF y)).
  destruct (SFcompare (Prim2SF x) (Prim2SF y)) as [[ | | ]|]; simpl; congruence.
Qed.

Section IterPos.
Context {A : Type} (f : A -> A) (P : A -> Prop).
Hypothesis f_keeps : forall a, P a -> P (f a).

Lemma iter_pos_keeps (p : positive) : forall a, P a -> P (iter_pos f p a).
Proof.
  induction p as [p IH|p IH|]; simpl; intros a Ha; auto.
Qed.
End IterPos.

Lemma shr_1_nonneg (mrs : shr_record) : shr_nonneg mrs -> shr_nonneg (shr_1 mrs).
Proof.
  unfold shr_nonneg. destruct mrs as [m r s]; simpl.
  destruct m as [|[p|p|]|[p|p|]]; simpl; lia.
Qed.

Lemma shr_fexp_nonneg (prec emax m e : Z) (l : location) :
  0 <= m -> shr_nonneg (fst (shr_fexp prec emax m e l)).
Proof.
  intros Hm. unfold shr_fexp, shr.
  assert (H0 : shr_nonneg (shr_record_of_loc m l)).
  { unfold shr_nonneg. destruct l as [|[ | | ]]; simpl; exact Hm. }
  destruct (fexp prec emax (Zdigits2 m + e) - e); simpl; auto.
  apply iter_pos_keeps; auto using shr_1_nonneg.
Qed.

Lemma round_nearest_even_nonneg (m : Z) (l : location) :
  0 <= m -> 0 <= round_nearest_even m l.
Proof.
  intros Hm. destruct l as [|[ | | ]]; simpl; try lia.
  destruct (Z.even m); lia.
Qed.

(** Rounding keeps the sign it is given: a negative rounding is a negative
    zero, a negative number or minus infinity. *)
Lemma binary_round_aux_neg (prec emax m e : Z) (l : location) :
  0 <= m -> SFnonpos (binary_round_aux prec emax true m e l).
Proof.
  intros Hm. unfold binary_round_aux.
  pose proof (shr_fexp_nonneg prec emax m e l Hm) as H1.
  destruct (shr_fexp prec emax m e l) as [mrs' e']. simpl in H1.
  pose proof (shr_fexp_nonneg prec emax
                (round_nearest_even (shr_m mrs') (loc_of_shr_record mrs'))
                e' loc_Exact
                (round_nearest_even_nonneg _ _ H1)) as H2.
  destruct (shr_fexp prec emax _ e' loc_Exact) as [mrs'' e'']. simpl in H2.
  unfold shr_nonneg in H2.
  destruct (shr_m mrs''); try lia; try reflexivity.
  destruct (e'' <=? emax - prec); reflexivity.
Qed.

Lemma binary_normalize_nonpos (prec emax m e : Z) :
  m <= 0 -> SFnonpos (binary_normalize prec emax m e false).
Proof.
  intros Hm. destruct m as [|p|p]; simpl; try lia; try reflexivity.
  unfold binary_round.
  destruct (shl_align p e _) as [mz ez].
  apply binary_round_aux_neg. lia.
Qed.

Lemma digits2_pos_bounds (m : positive) :
  2 ^ (Z.pos (digits2_pos m) - 1) <= Z.pos m < 2 ^ Z.pos (digits2_pos m).
Proof.
  induction m as [p IH|p IH|]; simpl digits2_pos.
  - rewrite Pos2Z.inj_succ, Z.pow_succ_r by lia.
    replace (Z.succ (Z.pos (digits2_pos p)) - 1)
      with (Z.succ (Z.pos (digits2_pos p) - 1)) by lia.
    rewrite Z.pow_succ_r by lia. lia.
  - rewrite Pos2Z.inj_succ, Z.pow_succ_r by lia.
    replace (Z.succ (Z.pos (digits2_pos p)) - 1)
      with (Z.succ (Z.pos (digits2_pos p) - 1)) by lia.
    rewrite Z.pow_succ_r by lia. lia.
  - simpl. lia.
Qed.

Lemma iter_xO_pow2 (m d : positive) :
  Z.pos (Pos.iter xO m d) = Z.pos m * 2 ^ Z.pos d.
Proof.
  induction d as [|d IH] using Pos.peano_ind.
  - simpl. lia.
  - rewrite Pos.iter_succ, Pos2Z.inj_succ, Z.pow_succ_r by lia.
    rewrite Pos2Z.inj_xO, IH. lia.
Qed.

(** Aligning a mantissa to a smaller exponent multiplies it by the power
    of two in between. *)
Lemma shl_align_value (m : positive) (e ez : Z) :
  ez <= e -> Z.pos (fst (shl_align m e ez)) = Z.pos m * 2 ^ (e - ez).
Proof.
  intros Hle. unfold shl_align.
  destruct (ez - e) as [|d|d] eqn:Hd; simpl; try lia.
  - replace (e - ez) with 0 by lia. rewrite Z.pow_0_r. lia.
  - rewrite iter_xO_pow2.
    replace (e - ez) with (- (ez - e)) by lia. rewrite Hd. reflexivity.
Qed.

(** A binary64 mantissa has at most 53 bits, and exactly 53 above the
    least exponent. *)
Lemma bounded_digits (m : positive) (e : Z) :
  bounded prec emax m e = true ->
  Z.pos m < 2 ^ 53 /\ (-1074 <= e) /\ (-1074 < e -> 2 ^ 52 <= Z.pos m).
Proof.
  unfold bounded, canonical_mantissa, fexp, SpecFloat.emin, prec, emax.
  intros H. apply andb_prop in H. destruct H as [H _].
  apply Z.eqb_eq in H.
  pose proof (digits2_pos_bounds m) as [Hlo Hhi].
  assert (Hd : Z.pos (digits2_pos m) <= 53) by lia.
  repeat split.
  - apply Z.lt_le_trans with (1 := Hhi). apply Z.pow_le_mono_r; lia.
  - lia.
  - intros He. assert (Hd' : Z.pos (digits2_pos m) = 53) by lia.
    rewrite Hd' in Hlo. exact Hlo.
Qed.

Lemma aligned_le (mx my : positive) (ex ey : Z) :
  bounded prec emax mx ex = true ->
  bounded prec emax my ey = true ->
  ex < ey \/ (ex = ey /\ Z.pos mx <= Z.pos my) ->
  Z.pos (fst (shl_align mx ex (Z.min ex ey)))
  <= Z.pos (fst (shl_align my ey (Z.min ex ey))).
Proof.
  intros Hx Hy Hc.
  rewrite !shl_align_value by lia.
  destruct (bounded_digits _ _ Hx) as (Hxhi & Hxe & _).
  destruct (bounded_digits _ _ Hy) as (_ & _ & Hynorm).
  destruct Hc as [Hlt|[-> Hle]].
  - rewrite Z.min_l by lia. rewrite Z.sub_diag, Z.pow_0_r.
    specialize (Hynorm ltac:(lia)).
    assert (Hp : 2 ^ 1 <= 2 ^ (ey - ex)) by (apply Z.pow_le_mono_r; lia).
    change (2 ^ 1) with 2 in Hp. change (2 ^ 53) with (2 ^ 52 * 2) in Hxhi.
    nia.
  - rewrite Z.min_id, Z.sub_diag, Z.pow_0_r. lia.
Qed.

Lemma SFsub_le_nonpos (x y : spec_float) :
  valid_binary x = true -> valid_binary y = true ->
  SFfinite x = true ->
  SFleb x y = true -> SFnonpos (SF64sub x y).
Proof.
  intros Vx Vy Fx Hle.
  destruct x as [sx|sx| |sx mx ex]; try discriminate Fx;
    destruct y as [sy|sy| |sy my ey]; try discriminate Hle.
  - destruct sx, sy; reflexivity.
  - destruct sy; [discriminate Hle | reflexivity].
  - destruct sy; [discriminate Hle | reflexivity].
  - destruct sx; [reflexivity | discriminate Hle].
  - destruct sy; [discriminate Hle | reflexivity].
  - unfold SF64sub, SFsub. apply binary_normalize_nonpos.
    simpl in Vx, Vy. unfold SFleb in Hle. simpl in Hle.
    destruct sx, sy; simpl cond_Zopp; try discriminate Hle; try lia.
    + (* both negative: the left operand has the larger magnitude *)
      rewrite (Z.min_comm ex ey).
      enough (Z.pos (fst (shl_align my ey (Z.min ey ex)))
              <= Z.pos (fst (shl_align mx ex (Z.min ey ex)))) by lia.
      apply aligned_le; auto.
      destruct (Z.compare_spec ex ey) as [E|E|E]; try discriminate Hle.
      * right. split; [congruence|].
        change (Pos.compare_cont Eq mx my) with (Pos.compare mx my) in Hle.
        destruct (Pos.compare_spec mx my); try discriminate Hle; lia.
      * left. lia.
    + (* both positive *)
      enough (Z.pos (fst (shl_align mx ex (Z.min ex ey)))
              <= Z.pos (fst (shl_align my ey (Z.min ex ey)))) by lia.
      apply aligned_le; auto.
      destruct (Z.compare_spec ex ey) as [E|E|E]; try discriminate Hle.
      * right. split; [congruence|].
        change (Pos.compare_cont Eq mx my) with (Pos.compare mx my) in Hle.
        destruct (Pos.compare_spec mx my); try discriminate Hle; lia.
      * left. lia.
Qed.

(** For a finite [x], [x <= y] gives [x - y <= 0]: the rounded difference
    never comes out positive. *)
Lemma sub_le_nonpos (x y : float) :
  SFfinite (Prim2SF x) = true ->
  (x <=? y)%float = true -> (x - y <=? 0)%float = true.
Proof.
  intros Fx Hle. rewrite FloatAxioms.leb_spec in Hle |- *.
  rewrite FloatAxioms.sub_spec.
  apply SFsub_le_nonpos; auto using Prim2SF_valid.
Qed.

End FloatFacts.

(** ** Basic facts about tiles, hazards and phases *)

Lemma tile_eqb_eq (a b : tile) : tile_eqb a b = true <-> a = b.
Proof.
  destruct a as [a1 a2], b as [b1 b2]. unfold tile_eqb. simpl.
  rewrite andb_true_iff, !Z.eqb_eq. split.
  - intros [-> ->]. reflexivity.
  - intros H. inversion H. auto.
Qed.

Lemma tile_eqb_refl (a : tile) : tile_eqb a a = true.
Proof. apply tile_eqb_eq. reflexivity. Qed.

(** [occupied] holds exactly when a hazard of the list stands on the tile
    and is alive. *)
Lemma occupied_spec (qs : list Qubit) (pos : tile) (now : float) :
  occupied qs pos now = true <->
  exists q, In q qs /\ grid_pos q = pos /\ is_alive q now = true.
Proof.
  unfold occupied. rewrite existsb_exists. split.
  - intros (q & Hin & H). apply andb_prop in H. destruct H as [Hp Ha].
    exists q. rewrite tile_eqb_eq in Hp. auto.
  - intros (q & Hin & Hp & Ha). exists q. split; [exact Hin|].
    rewrite Ha, andb_true_r. apply tile_eqb_eq. exact Hp.
Qed.

Lemma occupied_free (qs : list Qubit) (pos : tile) (now : float) :
  (forall q, In q qs -> grid_pos q = pos -> is_alive q now = false) ->
  occupied qs pos now = false.
Proof.
  intros H. destruct (occupied qs pos now) eqn:E; [|reflexivity].
  apply occupied_spec in E. destruct E as (q & Hin & Hp & Ha).
  rewrite (H q Hin Hp) in Ha. discriminate Ha.
Qed.

Lemma phase_playing (g : Game) :
  phase g = Some Playing <-> running g = true /\ win g = false /\ lose g = false.
Proof.
  unfold phase. destruct (running g), (win g), (lose g); split;
    try discriminate; try tauto; intros (? & ? & ?); discriminate.
Qed.

Lemma phase_ended (g : Game) :
  phase g = Some Won \/ phase g = Some Lost -> running g = false.
Proof.
  unfold phase. destruct (running g), (win g), (lose g);
    intros [H|H]; try discriminate H; reflexivity.
Qed.

(** ** Moving *)

(** C1. From phase Playing and not paused, an in-bounds move is committed
    and resolved in the same call: the phase becomes Lost when a hazard
    alive at the time of the move stands on the destination, and only
    otherwise Won when the destination is the goal. In particular a move
    onto the goal tile yields Lost when an alive hazard occupies the goal
    and Won when none does. *)
Theorem try_move_goal_phase (g : Game) (dx dy : Z) (now : float) :
  phase g = Some Playing -> pause g = false ->
  in_bounds (fst (player g) + dx, snd (player g) + dy) = true ->
  let dest := (fst (player g) + dx, snd (player g) + dy) in
  let g' := try_move g dx dy now in
  player g' = dest /\
  phase g' = Some (if occupied (qubits g) dest now then Lost
                   else if tile_eqb dest (goal g) then Won else Playing) /\
  (dest = goal g ->
   ((exists q, In q (qubits g) /\ grid_pos q = goal g /\ is_alive q now = true) ->
    phase g' = Some Lost) /\
   ((forall q, In q (qubits g) -> grid_pos q = goal g -> is_alive q now = false) ->
    phase g' = Some Won)).
Proof.
  intros Hp Hpause Hin dest g'.
  apply phase_playing in Hp. destruct Hp as (Hr & Hw & Hl).
  assert (Hg' : g' = let g1 := set_player g dest in
                     if occupied (qubits g) dest now then set_lose g1
                     else if tile_eqb dest (goal g) then set_win g1 else g1).
  { unfold g', try_move. rewrite Hr, Hpause. simpl negb. cbv iota zeta.
    rewrite Hin. reflexivity. }
  assert (Hphase : phase g' = Some (if occupied (qubits g) dest now then Lost
                     else if tile_eqb dest (goal g) then Won else Playing)).
  { rewrite Hg'. cbv zeta.
    destruct (occupied (qubits g) dest now); [|destruct (tile_eqb dest (goal g))];
      unfold phase; simpl; rewrite ?Hr, ?Hw, ?Hl; reflexivity. }
  split; [|split].
  - rewrite Hg'. cbv zeta.
    destruct (occupied (qubits g) dest now); [|destruct (tile_eqb dest (goal g))];
      reflexivity.
  - exact Hphase.
  - intros Hgoal. rewrite Hphase, Hgoal. split.
    + intros Hex. apply occupied_spec in Hex. rewrite Hex. reflexivity.
    + intros Hfree. rewrite (occupied_free _ _ _ Hfree), tile_eqb_refl.
      reflexivity.
Qed.

(** Moving onto the guarded goal at time 1, while the hazard is alive:
    Lost, not Won. *)
Lemma try_move_goal_phase_witness :
  phase guarded_goal = Some Playing /\ pause guarded_goal = false /\
  in_bounds (fst (player guarded_goal) + 1, snd (player guarded_goal) + 0)
  = true /\
  player (try_move guarded_goal 1 0 1%float) = goal guarded_goal /\
  phase (try_move guarded_goal 1 0 1%float) = Some Lost.
Proof.
  assert (Hp : phase guarded_goal = Some Playing) by reflexivity.
  assert (Hz : pause guarded_goal = false) by reflexivity.
  assert (Hb : in_bounds (fst (player guarded_goal) + 1,
                          snd (player guarded_goal) + 0) = true)
    by reflexivity.
  destruct (try_move_goal_phase guarded_goal 1 0 1%float Hp Hz Hb)
    as (H1 & H2 & H3).
  split; [exact Hp|]. split; [exact Hz|]. split; [exact Hb|].
  split; [exact H1 | exact H2].
Defined.

(** ** Spawning *)

(** The loop returns at the first draw that is not rejected, appending one
    hazard built by [new_qubit]; when the [fuel] draws from [tries] on are
    all rejected it returns the state it was given. *)
Lemma spawn_loop_cases (g : Game) (now : float) (draws : nat -> Z * Z)
  (fuel tries : nat) :
  ((forall j, (tries <= j < tries + fuel)%nat ->
              rejected g now (drawn draws j) = true) /\
   spawn_loop g now draws fuel tries = g)
  \/
  (exists i, (tries <= i < tries + fuel)%nat /\
     rejected g now (drawn draws i) = false /\
     (forall j, (tries <= j < i)%nat -> rejected g now (drawn draws j) = true) /\
     spawn_loop g now draws fuel tries
     = set_qubits g (qubits g ++ [new_qubit (drawn draws i) now])).
Proof.
  revert tries. induction fuel as [|fuel IH]; intros tries.
  - left. split; [intros j Hj; lia | reflexivity].
  - simpl spawn_loop. fold (drawn draws tries).
    destruct (rejected g now (drawn draws tries)) eqn:Hrej.
    + assert (Hnext : (if tile_eqb (drawn draws tries) (goal g)
                       then spawn_loop g now draws fuel (S tries)
                       else if occupied (qubits g) (drawn draws tries) now
                            then spawn_loop g now draws fuel (S tries)
                            else set_qubits g (qubits g ++
                                   [new_qubit (drawn draws tries) now]))
                      = spawn_loop g now draws fuel (S tries)).
      { unfold rejected in Hrej.
        destruct (tile_eqb (drawn draws tries) (goal g)); [reflexivity|].
        simpl in Hrej. rewrite Hrej. reflexivity. }
      rewrite Hnext.
      destruct (IH (S tries)) as [[Hall Heq]|(i & Hi & Hok & Hbefore & Heq)].
      * left. split; [|exact Heq].
        intros j Hj. destruct (Nat.eq_dec j tries) as [->|Hne];
          [exact Hrej | apply Hall; lia].
      * right. exists i. split; [lia|]. split; [exact Hok|].
        split; [|exact Heq].
        intros j Hj. destruct (Nat.eq_dec j tries) as [->|Hne];
          [exact Hrej | apply Hbefore; lia].
    + right. exists tries. split; [lia|]. split; [exact Hrej|].
      split; [intros j Hj; lia|].
      unfold rejected in Hrej. apply orb_false_elim in Hrej.
      destruct Hrej as [-> ->]. reflexivity.
Qed.

(** [spawn_qubit] writes no field but [qubits], and appends at most one
    hazard. *)
Lemma spawn_qubit_frame (g : Game) (now : float) (draws : nat -> Z * Z) :
  spawn_qubit g now draws = g \/
  exists t, spawn_qubit g now draws
            = set_qubits g (qubits g ++ [new_qubit t now]) /\
            (length (qubits g) < MAX_ACTIVE_QUBITS)%nat.
Proof.
  unfold spawn_qubit.
  destruct (MAX_ACTIVE_QUBITS <=? length (qubits g))%nat eqn:Hcap;
    [left; reflexivity|].
  apply Nat.leb_gt in Hcap.
  destruct (spawn_loop_cases g now draws 50 0)
    as [[_ Heq]|(i & _ & _ & _ & Heq)].
  - left. exact Heq.
  - right. exists (drawn draws i). split; [exact Heq | exact Hcap].
Qed.

(** C2, as the code has it. A spawn below the cap returns at the first of
    its 50 draws that is not rejected and appends one hazard there, born
    at [now], whose lifetime is the constant [QUBIT_LIFETIME] whatever was
    drawn; when all 50 draws are rejected the state is returned unchanged.
    The function is total: no outcome is an error. *)
Theorem spawn_qubit_outcome (g : Game) (now : float) (draws : nat -> Z * Z) :
  (length (qubits g) < MAX_ACTIVE_QUBITS)%nat ->
  (forall i, (i < 50)%nat ->
     rejected g now (drawn draws i) = false ->
     (forall j, (j < i)%nat -> rejected g now (drawn draws j) = true) ->
     spawn_qubit g now draws
     = set_qubits g (qubits g ++
         [{| grid_pos := drawn draws i; spawn_time := now;
             lifetime := QUBIT_LIFETIME |}]))
  /\
  ((forall j, (j < 50)%nat -> rejected g now (drawn draws j) = true) ->
   spawn_qubit g now draws = g).
Proof.
  intros Hcap.
  assert (Hrun : spawn_qubit g now draws = spawn_loop g now draws 50 0).
  { unfold spawn_qubit. apply Nat.leb_gt in Hcap. rewrite Hcap. reflexivity. }
  rewrite Hrun.
  destruct (spawn_loop_cases g now draws 50 0)
    as [[Hall Heq]|(k & Hk & Hok & Hbefore & Heq)].
  - split; [|intros _; exact Heq].
    intros i Hi Hfree _. rewrite Hall in Hfree by lia. discriminate Hfree.
  - split.
    + intros i Hi Hfree Hprev.
      assert (Hik : i = k).
      { destruct (Nat.lt_trichotomy i k) as [Hlt|[Heqik|Hgt]];
          [|exact Heqik|].
        - rewrite Hbefore in Hfree by lia. discriminate Hfree.
        - rewrite Hprev in Hok by lia. discriminate Hok. }
      subst i. exact Heq.
    + intros Hall. rewrite Hall in Hok by lia. discriminate Hok.
Qed.

(** A fresh game at time 0; every draw is the tile (3, 4). *)
Lemma spawn_qubit_outcome_witness :
  (length (qubits (new_game 0 0)) < MAX_ACTIVE_QUBITS)%nat /\
  rejected (new_game 0 0) 0%float (drawn (same_draw 3 4) 0) = false /\
  spawn_qubit (new_game 0 0) 0%float (same_draw 3 4)
  = set_qubits (new_game 0 0)
      [{| grid_pos := (3, 4); spawn_time := 0%float;
          lifetime := QUBIT_LIFETIME |}].
Proof.
  assert (Hcap : (length (qubits (new_game 0 0)) < MAX_ACTIVE_QUBITS)%nat)
    by (unfold MAX_ACTIVE_QUBITS; simpl; lia).
  split; [exact Hcap|]. split; [reflexivity|].
  apply (proj1 (spawn_qubit_outcome (new_game 0 0) 0%float (same_draw 3 4) Hcap)
               0%nat).
  - lia.
  - reflexivity.
  - intros j Hj. lia.
Defined.

(** C2, refuted as stated: the lifetime of an inserted hazard does not
    depend on the draws. Two spawns into a fresh game on different draws
    insert hazards on different tiles with the same lifetime, and no state,
    time and pair of draws give two lifetimes. *)
Lemma spawn_lifetime_is_constant :
  (exists q1 q2,
     qubits (spawn_qubit (new_game 0 0) 0%float (same_draw 3 4)) = [q1] /\
     qubits (spawn_qubit (new_game 0 0) 0%float (same_draw 5 6)) = [q2] /\
     grid_pos q1 <> grid_pos q2 /\
     lifetime q1 = QUBIT_LIFETIME /\ lifetime q2 = QUBIT_LIFETIME)
  /\ ~ spawn_lifetime_varies.
Proof.
  split.
  - exists (new_qubit (3, 4) 0%float), (new_qubit (5, 6) 0%float).
    repeat split; try reflexivity. simpl. intros H. discriminate H.
  - intros (g & now & d1 & d2 & q1 & q2 & H1 & H2 & Hne).
    assert (Hfixed : forall d q, qubits (spawn_qubit g now d) = qubits g ++ [q] ->
                                 lifetime q = QUBIT_LIFETIME).
    { intros d q Hq.
      destruct (spawn_qubit_frame g now d) as [Heq|(t & Heq & _)];
        rewrite Heq in Hq.
      - rewrite <- (app_nil_r (qubits g)) in Hq at 1.
        apply app_inv_head in Hq. discriminate Hq.
      - simpl in Hq. apply app_inv_head in Hq.
        injection Hq as <-. reflexivity. }
    apply Hne. rewrite (Hfixed d1 q1 H1), (Hfixed d2 q2 H2). reflexivity.
Qed.

(** ** What [update] reads and writes *)

Ltac split_ifs :=
  repeat match goal with
         | |- context [if ?c then _ else _] => destruct c eqn:?
         end.

Lemma after_spawn_fields (g : Game) (now : float) (draws : nat -> Z * Z) (u : Z) :
  let g1 := after_spawn g now draws u in
  start g1 = start g /\ goal g1 = goal g /\ player g1 = player g /\
  start_time g1 = start_time g /\ running g1 = running g /\
  win g1 = win g /\ lose g1 = lose g /\ pause g1 = pause g.
Proof.
  unfold after_spawn.
  destruct (spawn_qubit_frame g now draws) as [Heq|(t & Heq & _)];
    rewrite Heq; split_ifs; simpl; repeat split; reflexivity.
Qed.

Lemma after_spawn_length (g : Game) (now : float) (draws : nat -> Z * Z) (u : Z) :
  (length (qubits g) <= MAX_ACTIVE_QUBITS)%nat ->
  (length (qubits (after_spawn g now draws u)) <= MAX_ACTIVE_QUBITS)%nat.
Proof.
  intros Hcap. unfold after_spawn.
  destruct (spawn_qubit_frame g now draws) as [Heq|(t & Heq & Hlt)];
    rewrite Heq; split_ifs; simpl; try exact Hcap.
  rewrite length_app. simpl. lia.
Qed.

(** [update] is the spawn step, the purge, and then at most one
    [set_lose]. *)
Lemma update_unfold (g : Game) (now : float) (draws : nat -> Z * Z) (u : Z) :
  let g2 := set_qubits (after_spawn g now draws u)
              (filter (fun q => is_alive q now)
                      (qubits (after_spawn g now draws u))) in
  update g now draws u = g2 \/
  (update g now draws u = set_lose g2 /\ running g = true).
Proof.
  cbv zeta. unfold update. fold (after_spawn g now draws u). cbv zeta.
  destruct (after_spawn_fields g now draws u) as (_ & _ & _ & _ & Hr & _).
  cbv zeta in Hr.
  set (g1 := after_spawn g now draws u) in *.
  set (g2 := set_qubits g1 (filter (fun q => is_alive q now) (qubits g1))).
  assert (Hr2 : running g2 = running g) by exact Hr.
  destruct (existsb _ (qubits g2)) eqn:Hhit.
  - right. split; [reflexivity|].
    apply existsb_exists in Hhit. destruct Hhit as (q & _ & Hq).
    apply andb_prop in Hq. destruct Hq as [_ Hq]. congruence.
  - destruct ((TOTAL_TIME - (now - start_time g2) <=? 0)%float && running g2)
      eqn:Htime.
    + right. split; [reflexivity|].
      apply andb_prop in Htime. destruct Htime as [_ Htime]. congruence.
    + left. reflexivity.
Qed.

Lemma update_qubits (g : Game) (now : float) (draws : nat -> Z * Z) (u : Z) :
  qubits (update g now draws u)
  = filter (fun q => is_alive q now) (qubits (after_spawn g now draws u)).
Proof.
  destruct (update_unfold g now draws u) as [H|[H _]]; rewrite H; reflexivity.
Qed.

Lemma update_player (g : Game) (now : float) (draws : nat -> Z * Z) (u : Z) :
  player (update g now draws u) = player g.
Proof.
  rewrite <- (proj1 (proj2 (proj2 (after_spawn_fields g now draws u)))).
  destruct (update_unfold g now draws u) as [H|[H _]]; rewrite H; reflexivity.
Qed.

(** C10. [update] leaves the player, the start tile, the goal tile and the
    start time as they were (and the pause flag, and never sets [win]):
    only the hazards, the next spawn time and the lose and running flags
    are written. *)
Theorem update_frame (g : Game) (now : float) (draws : nat -> Z * Z) (u : Z) :
  player (update g now draws u) = player g /\
  start (update g now draws u) = start g /\
  goal (update g now draws u) = goal g /\
  start_time (update g now draws u) = start_time g /\
  pause (update g now draws u) = pause g /\
  win (update g now draws u) = win g.
Proof.
  destruct (after_spawn_fields g now draws u)
    as (Hs & Hg & Hp & Ht & _ & Hw & _ & Hz).
  cbv zeta in *.
  destruct (update_unfold g now draws u) as [H|[H _]]; rewrite H; simpl;
    repeat split; assumption.
Qed.

(** ** Restart *)

(** C8. From any state, [reset] gives phase Playing, no hazards, the
    player on the start tile, the start time set to the clock and the next
    spawn scheduled from it; the pause flag is cleared and the two fixed
    tiles are kept. *)
Theorem reset_state (g : Game) (now : float) (u : Z) :
  phase (reset g now u) = Some Playing /\
  qubits (reset g now u) = [] /\
  player (reset g now u) = start g /\
  start_time (reset g now u) = now /\
  next_spawn_time (reset g now u)
  = (now + uniform SPAWN_INTERVAL_MIN SPAWN_INTERVAL_MAX u)%float /\
  pause (reset g now u) = false /\
  start (reset g now u) = start g /\ goal (reset g now u) = goal g.
Proof.
  unfold reset, phase. simpl. repeat split.
Qed.

(** ** Invariants of the reachable states *)

(** [try_move] returns the state unchanged, or commits an in-bounds move
    from a running, unpaused state and then at most ends the run. *)
Lemma try_move_cases (g : Game) (dx dy : Z) (now : float) :
  let dest := (fst (player g) + dx, snd (player g) + dy) in
  try_move g dx dy now = g \/
  (running g = true /\ pause g = false /\ in_bounds dest = true /\
   (try_move g dx dy now = set_player g dest \/
    try_move g dx dy now = set_lose (set_player g dest) \/
    try_move g dx dy now = set_win (set_player g dest))).
Proof.
  cbv zeta. unfold try_move.
  destruct (running g); [|left; reflexivity].
  destruct (pause g); [left; reflexivity|].
  simpl negb. cbv iota zeta.
  destruct (in_bounds _) eqn:Hin; [|left; reflexivity].
  right. repeat split; try reflexivity.
  destruct (occupied _ _ now); [right; left; reflexivity|].
  destruct (tile_eqb _ _); [right; right; reflexivity | left; reflexivity].
Qed.

(** The two fixed tiles are those of the constructor in every reachable
    state. *)
Lemma reachable_tiles (g : Game) :
  reachable g -> start g = (0, GRID_ROWS - 1) /\ goal g = (GRID_COLS - 1, 0).
Proof.
  induction 1 as [now u|g dx dy now Hg IH|g now draws u Hg IH|g now u Hg IH].
  - split; reflexivity.
  - destruct (try_move_cases g dx dy now) as [H|(_ & _ & _ & [H|[H|H]])];
      rewrite H; exact IH.
  - destruct (after_spawn_fields g now draws u) as (Hs & Hgl & _).
    cbv zeta in *.
    destruct (update_unfold g now draws u) as [H|[H _]]; rewrite H; simpl;
      rewrite Hs, Hgl; exact IH.
  - exact IH.
Qed.

(** C3. The player of a reachable state stands inside the grid, and a
    [try_move] whose destination is outside the grid changes nothing, the
    player's tile in particular. *)
Theorem player_in_bounds (g : Game) (dx dy : Z) (now : float) :
  (reachable g ->
   in_bounds (player g) = true /\
   0 <= fst (player g) < GRID_COLS /\ 0 <= snd (player g) < GRID_ROWS) /\
  (in_bounds (fst (player g) + dx, snd (player g) + dy) = false ->
   try_move g dx dy now = g /\ player (try_move g dx dy now) = player g).
Proof.
  split.
  - intros Hreach.
    assert (Hin : in_bounds (player g) = true).
    { clear dx dy now.
      induction Hreach
        as [now u|g dx dy now Hg IH|g now draws u Hg IH|g now u Hg IH].
      - reflexivity.
      - destruct (try_move_cases g dx dy now)
          as [H|(_ & _ & Hin & [H|[H|H]])]; rewrite H; assumption.
      - rewrite update_player. exact IH.
      - simpl. rewrite (proj1 (reachable_tiles g Hg)). reflexivity. }
    split; [exact Hin|].
    unfold in_bounds in Hin.
    rewrite !andb_true_iff, !Z.leb_le, !Z.ltb_lt in Hin. lia.
  - intros Hout.
    assert (H : try_move g dx dy now = g).
    { destruct (try_move_cases g dx dy now) as [H|(_ & _ & Hin & _)];
        [exact H | congruence]. }
    rewrite H. split; reflexivity.
Qed.

(** A fresh game: the player is on (0, 9), and a step to the left is
    refused. *)
Lemma player_in_bounds_witness :
  in_bounds (player (new_game 0 0)) = true /\
  try_move (new_game 0 0) (-1) 0 1%float = new_game 0 0.
Proof.
  pose proof (player_in_bounds (new_game 0 0) (-1) 0 1%float) as [Hin Hout].
  split.
  - exact (proj1 (Hin (reach_init 0 0))).
  - exact (proj1 (Hout eq_refl)).
Defined.

Lemma try_move_qubits (g : Game) (dx dy : Z) (now : float) :
  qubits (try_move g dx dy now) = qubits g.
Proof.
  destruct (try_move_cases g dx dy now) as [H|(_ & _ & _ & [H|[H|H]])];
    rewrite H; reflexivity.
Qed.

(** C5. A reachable state holds at most [MAX_ACTIVE_QUBITS] hazards, so
    does the state every [update] of it returns, and at most that many are
    alive at any time; [spawn_qubit] returns the state unchanged when the
    list has reached the cap. *)
Theorem hazards_capped (g : Game) (now : float) (draws : nat -> Z * Z) (u : Z) :
  (reachable g ->
   (length (qubits g) <= MAX_ACTIVE_QUBITS)%nat /\
   (length (qubits (update g now draws u)) <= MAX_ACTIVE_QUBITS)%nat /\
   (forall t, (length (filter (fun q => is_alive q t) (qubits g))
               <= MAX_ACTIVE_QUBITS)%nat)) /\
  ((MAX_ACTIVE_QUBITS <= length (qubits g))%nat ->
   spawn_qubit g now draws = g).
Proof.
  assert (Hstep : forall g now draws u,
            (length (qubits g) <= MAX_ACTIVE_QUBITS)%nat ->
            (length (qubits (update g now draws u)) <= MAX_ACTIVE_QUBITS)%nat).
  { intros g0 now0 draws0 u0 Hcap. rewrite update_qubits.
    eapply Nat.le_trans; [apply filter_length_le|].
    apply after_spawn_length. exact Hcap. }
  split.
  - intros Hreach.
    assert (Hcap : (length (qubits g) <= MAX_ACTIVE_QUBITS)%nat).
    { clear now draws u.
      induction Hreach
        as [now u|g dx dy now Hg IH|g now draws u Hg IH|g now u Hg IH].
      - simpl. apply Nat.le_0_l.
      - rewrite try_move_qubits. exact IH.
      - apply Hstep. exact IH.
      - simpl. apply Nat.le_0_l. }
    split; [exact Hcap|]. split; [apply Hstep; exact Hcap|].
    intros t. eapply Nat.le_trans; [apply filter_length_le | exact Hcap].
  - intros Hfull. unfold spawn_qubit.
    apply Nat.leb_le in Hfull. rewrite Hfull. reflexivity.
Qed.

(** A fresh game after one [update] that spawns, and a spawn into a full
    list. *)
Lemma hazards_capped_witness :
  (length (qubits (update (new_game 0 0) 1%float (same_draw 3 4) 0))
   <= MAX_ACTIVE_QUBITS)%nat /\
  (MAX_ACTIVE_QUBITS <= length (qubits crowded))%nat /\
  spawn_qubit crowded 1%float (same_draw 7 7) = crowded.
Proof.
  split; [|split].
  - exact (proj1 (proj2 (proj1
             (hazards_capped (new_game 0 0) 1%float (same_draw 3 4) 0)
             (reach_init 0 0)))).
  - apply Nat.le_refl.
  - exact (proj2 (hazards_capped crowded 1%float (same_draw 7 7) 0)
                 (Nat.le_refl _)).
Defined.

(** C9. In a reachable state [win] and [lose] are never both set and
    [running] holds exactly when neither is: the three flags encode one of
    the phases Playing, Won, Lost. *)
Theorem flags_consistent (g : Game) :
  reachable g ->
  win g && lose g = false /\
  running g = negb (win g || lose g) /\
  exists p, phase g = Some p.
Proof.
  intros Hreach.
  assert (Hp : exists p, phase g = Some p).
  { induction Hreach
      as [now u|g dx dy now Hg IH|g now draws u Hg IH|g now u Hg IH].
    - exists Playing. reflexivity.
    - destruct (try_move_cases g dx dy now)
        as [H|(Hr & _ & _ & [H|[H|H]])]; rewrite H; try exact IH;
        destruct IH as [p Hp]; unfold phase in *; simpl; rewrite Hr in Hp;
        destruct (win g), (lose g); try discriminate Hp; eauto.
    - destruct (after_spawn_fields g now draws u)
        as (_ & _ & _ & _ & Hr & Hw & Hl & _).
      cbv zeta in *. destruct IH as [p Hp].
      destruct (update_unfold g now draws u) as [H|[H Hrun]]; rewrite H;
        unfold phase in *; simpl; rewrite ?Hr, ?Hw, ?Hl.
      + eauto.
      + rewrite Hrun in Hp.
        destruct (win g), (lose g); try discriminate Hp; eauto.
    - exists Playing. reflexivity. }
  destruct Hp as [p Hp]. pose proof Hp as Hflags. unfold phase in Hflags.
  destruct (running g), (win g), (lose g); try discriminate Hflags;
    (split; [reflexivity | split; [reflexivity | exists p; exact Hp]]).
Qed.

(** The ambushed game is reachable, and its flags are those of phase
    Lost. *)
Lemma flags_consistent_witness :
  win ambushed && lose ambushed = false /\
  running ambushed = negb (win ambushed || lose ambushed) /\
  phase ambushed = Some Lost.
Proof.
  destruct (flags_consistent ambushed
              (reach_update _ 1%float (same_draw 0 9) 0 (reach_init 0 0)))
    as (H1 & H2 & _).
  split; [exact H1 | split; [exact H2 | reflexivity]].
Defined.

(** ** Expiry of hazards and of the timer *)

(** C6. A hazard with [now - spawn_time >= lifetime] is not in the list
    [update] leaves at [now], whether it was there before or not; every
    hazard that is left is alive at [now]. *)
Theorem update_purges (g : Game) (now : float) (draws : nat -> Z * Z) (u : Z)
  (q : Qubit) :
  (In q (qubits g) ->
   (lifetime q <=? now - spawn_time q)%float = true ->
   ~ In q (qubits (update g now draws u))) /\
  (In q (qubits (update g now draws u)) -> is_alive q now = true).
Proof.
  assert (Halive : In q (qubits (update g now draws u)) -> is_alive q now = true).
  { rewrite update_qubits. intros Hin. apply filter_In in Hin. apply Hin. }
  split; [|exact Halive].
  intros _ Hold Hin. apply Halive in Hin.
  unfold is_alive, age in Hin.
  rewrite (FloatFacts.leb_not_ltb _ _ Hold) in Hin. discriminate Hin.
Qed.

(** At time 1.2 the hazard born at 0 has reached its lifetime: the update
    drops it. *)
Lemma update_purges_witness :
  In old_hazard (qubits haunted) /\
  (lifetime old_hazard <=? 1.2 - spawn_time old_hazard)%float = true /\
  ~ In old_hazard (qubits (update haunted 1.2%float (same_draw 5 5) 0)).
Proof.
  assert (Hin : In old_hazard (qubits haunted)) by (left; reflexivity).
  split; [exact Hin|]. split; [reflexivity|].
  exact (proj1 (update_purges haunted 1.2%float (same_draw 5 5) 0 old_hazard)
               Hin eq_refl).
Defined.

(** The budget of the timer is a finite number. *)
Lemma TOTAL_TIME_finite : FloatFacts.SFfinite (Prim2SF TOTAL_TIME) = true.
Proof. reflexivity. Qed.

(** Once the run has ended, [update] writes no flag. *)
Lemma update_ended (g : Game) (now : float) (draws : nat -> Z * Z) (u : Z) :
  running g = false -> phase (update g now draws u) = phase g.
Proof.
  intros Hstop.
  destruct (after_spawn_fields g now draws u)
    as (_ & _ & _ & _ & Hr & Hw & Hl & _).
  cbv zeta in *.
  destruct (update_unfold g now draws u) as [H|[_ Hrun]]; [|congruence].
  rewrite H. unfold phase. simpl. rewrite Hr, Hw, Hl. reflexivity.
Qed.

Lemma update_stays_ended (g : Game) (now : float) (draws : nat -> Z * Z) (u : Z) :
  running g = false -> running (update g now draws u) = false.
Proof.
  intros Hstop.
  destruct (after_spawn_fields g now draws u) as (_ & _ & _ & _ & Hr & _).
  cbv zeta in *.
  destruct (update_unfold g now draws u) as [H|[_ Hrun]]; [|congruence].
  rewrite H. simpl. rewrite Hr. exact Hstop.
Qed.

(** C4. From phase Playing, an [update] at a time with
    [now - start_time >= TOTAL_TIME] ends the run in phase Lost; and from
    a phase other than Playing no [update], and no sequence of them,
    changes the phase. *)
Theorem update_timeout (g : Game) (now : float) (draws : nat -> Z * Z) (u : Z)
  (calls : list (float * (nat -> Z * Z) * Z)) :
  (phase g = Some Playing ->
   (TOTAL_TIME <=? now - start_time g)%float = true ->
   phase (update g now draws u) = Some Lost) /\
  (phase g = Some Won \/ phase g = Some Lost ->
   phase (update g now draws u) = phase g /\
   phase (update_all g calls) = phase g).
Proof.
  split.
  - intros Hp Hlate.
    apply phase_playing in Hp. destruct Hp as (Hr & Hw & Hl).
    destruct (after_spawn_fields g now draws u)
      as (_ & _ & _ & Ht1 & Hr1 & Hw1 & Hl1 & _).
    cbv zeta in *.
    unfold update. fold (after_spawn g now draws u). cbv zeta.
    set (g1 := after_spawn g now draws u) in *.
    set (g2 := set_qubits g1 (filter (fun q => is_alive q now) (qubits g1))).
    assert (Hlost : phase (set_lose g2) = Some Lost).
    { unfold phase. simpl. rewrite Hw1, Hw. reflexivity. }
    destruct (existsb _ (qubits g2)); [exact Hlost|].
    assert (Hleft : (TOTAL_TIME - (now - start_time g2) <=? 0)%float = true).
    { apply FloatFacts.sub_le_nonpos; [exact TOTAL_TIME_finite|].
      change (start_time g2) with (start_time g1). rewrite Ht1. exact Hlate. }
    assert (Hr2 : running g2 = true) by (rewrite <- Hr, <- Hr1; reflexivity).
    rewrite Hleft, Hr2. exact Hlost.
  - intros Hend. apply phase_ended in Hend.
    split; [apply update_ended; exact Hend|].
    unfold update_all. revert g Hend.
    induction calls as [|[[t d] r] calls IH]; intros g Hend; [reflexivity|].
    simpl. rewrite IH.
    + apply update_ended. exact Hend.
    + apply update_stays_ended. exact Hend.
Qed.

(** A fresh game started at time 0, updated at time 45 and then twice
    more: Lost at 45, and Lost it stays. *)
Lemma update_timeout_witness :
  phase (new_game 0 0) = Some Playing /\
  (TOTAL_TIME <=? 45 - start_time (new_game 0 0))%float = true /\
  phase (update (new_game 0 0) 45%float (same_draw 3 4) 0) = Some Lost /\
  phase (update_all (update (new_game 0 0) 45%float (same_draw 3 4) 0)
           [(46%float, same_draw 1 1, 0); (100%float, same_draw 2 2, 0)])
  = Some Lost.
Proof.
  assert (Hlost : phase (update (new_game 0 0) 45%float (same_draw 3 4) 0)
                  = Some Lost).
  { exact (proj1 (update_timeout (new_game 0 0) 45%float (same_draw 3 4) 0 [])
                 eq_refl eq_refl). }
  split; [reflexivity|]. split; [reflexivity|]. split; [exact Hlost|].
  refine (eq_trans _ Hlost).
  exact (proj2 (proj2 (update_timeout _ 46%float (same_draw 1 1) 0
                         [(46%float, same_draw 1 1, 0);
                          (100%float, same_draw 2 2, 0)])
                      (or_intror Hlost))).
Defined.

(** ** The queries of a hazard *)

(** C7, refuted as stated. At age 0 the source answers 255 where the
    specification's fade is 1, and half way through the lifetime 127
    where the fade is 0.5: [alpha] is an integer on the scale 0..255,
    truncated. With a lifetime of 0 the division raises. *)
Lemma alpha_is_not_the_spec_fade :
  alpha old_hazard 0%float = Ok 255 /\
  spec_fadeAlpha old_hazard 0%float = 1%float /\
  alpha old_hazard 0.6%float = Ok 127 /\
  spec_fadeAlpha old_hazard 0.6%float = 0.5%float /\
  alpha stillborn 1%float = Raise ZeroDivisionError.
Proof.
  repeat split; vm_compute; reflexivity.
Qed.

(** C7, as the code has it. [is_alive] is the comparison
    [now - spawn_time < lifetime]. For a lifetime other than zero [alpha]
    is [int(255 * (1 - frac))] with [frac] the ratio [age / lifetime]
    clamped to [0, 1]: 255 while the ratio is not above 0, 0 once it is
    not below 1, and the truncation of [255 * (1 - age / lifetime)] in
    between. Both read the spawn time, the lifetime and the clock only:
    two hazards that agree on the first two get the same answers. *)
Theorem qubit_queries (q q' : Qubit) (now : float) :
  (lifetime q =? 0)%float = false ->
  is_alive q now = (now - spawn_time q <? lifetime q)%float /\
  alpha q now
  = (let r := ((now - spawn_time q) / lifetime q)%float in
     if (r <? 1)%float then
       if (0 <? r)%float then py_int (255 * (1 - r))%float else Ok 255
     else Ok 0) /\
  (spawn_time q' = spawn_time q -> lifetime q' = lifetime q ->
   is_alive q' now = is_alive q now /\ alpha q' now = alpha q now).
Proof.
  intros Hlife. split; [reflexivity|]. split.
  - unfold alpha, py_div, age. rewrite Hlife. cbv zeta. simpl bind.
    unfold py_min, py_max.
    destruct ((now - spawn_time q) / lifetime q <? 1)%float eqn:Hlt1.
    + destruct (0 <? (now - spawn_time q) / lifetime q)%float eqn:Hgt0.
      * reflexivity.
      * reflexivity.
    + reflexivity.
  - intros Hs Hl. unfold is_alive, alpha, age. rewrite Hs, Hl.
    split; reflexivity.
Qed.

(** The hazard born at 0 with the default lifetime, seen at 0.3: alive,
    three quarters opaque. *)
Lemma qubit_queries_witness :
  (lifetime old_hazard =? 0)%float = false /\
  is_alive old_hazard 0.3%float = true /\
  alpha old_hazard 0.3%float = Ok 191.
Proof.
  destruct (qubit_queries old_hazard old_hazard 0.3%float eq_refl)
    as (Ha & Hb & _).
  split; [reflexivity|]. split.
  - rewrite Ha. reflexivity.
  - rewrite Hb. reflexivity.
Defined.

(** ** Where hazards appear *)

Lemma drawn_in_bounds (draws : nat -> Z * Z) (i : nat) :
  in_bounds (drawn draws i) = true.
Proof.
  unfold in_bounds, drawn, randrange, GRID_COLS, GRID_ROWS. simpl fst. simpl snd.
  pose proof (Z.mod_pos_bound (fst (draws i)) 10 ltac:(lia)) as Hc.
  pose proof (Z.mod_pos_bound (snd (draws i)) 10 ltac:(lia)) as Hr.
  rewrite !andb_true_iff, !Z.leb_le, !Z.ltb_lt. lia.
Qed.

Lemma tile_eqb_neq (a b : tile) : tile_eqb a b = false <-> a <> b.
Proof.
  split.
  - intros H Heq. apply tile_eqb_eq in Heq. congruence.
  - intros H. destruct (tile_eqb a b) eqn:E; [|reflexivity].
    apply tile_eqb_eq in E. contradiction.
Qed.

(** A spawn returns the state as it was, or appends one hazard on a tile
    of the grid that is not the goal and holds no hazard alive at [now]. *)
Lemma spawn_qubit_placed (g : Game) (now : float) (draws : nat -> Z * Z) :
  spawn_qubit g now draws = g \/
  exists t,
    in_bounds t = true /\ t <> goal g /\ occupied (qubits g) t now = false /\
    (length (qubits g) < MAX_ACTIVE_QUBITS)%nat /\
    spawn_qubit g now draws = set_qubits g (qubits g ++ [new_qubit t now]).
Proof.
  unfold spawn_qubit.
  destruct (MAX_ACTIVE_QUBITS <=? length (qubits g))%nat eqn:Hcap;
    [left; reflexivity|].
  apply Nat.leb_gt in Hcap.
  destruct (spawn_loop_cases g now draws 50 0)
    as [[_ Heq]|(i & _ & Hok & _ & Heq)]; [left; exact Heq|].
  right. exists (drawn draws i).
  unfold rejected in Hok. apply orb_false_elim in Hok. destruct Hok as [Hg Ho].
  split; [apply drawn_in_bounds|]. split; [apply tile_eqb_neq; exact Hg|].
  split; [exact Ho|]. split; [exact Hcap | exact Heq].
Qed.

(** X1. Whatever is drawn, [spawn_qubit] keeps the hazards it was given,
    in order, and adds at most one. A hazard it adds is born at [now]
    with the default lifetime, on a tile of the grid that is not the goal
    and on which no hazard of the state is alive at [now]. *)
Theorem spawn_qubit_placement (g : Game) (now : float) (draws : nat -> Z * Z)
  (q : Qubit) :
  (exists added, qubits (spawn_qubit g now draws) = qubits g ++ added /\
                 (length added <= 1)%nat) /\
  (In q (qubits (spawn_qubit g now draws)) -> ~ In q (qubits g) ->
   spawn_time q = now /\ lifetime q = QUBIT_LIFETIME /\
   in_bounds (grid_pos q) = true /\ grid_pos q <> goal g /\
   occupied (qubits g) (grid_pos q) now = false).
Proof.
  destruct (spawn_qubit_placed g now draws)
    as [Heq|(t & Hin & Hgoal & Hfree & _ & Heq)]; rewrite Heq.
  - split.
    + exists []. rewrite app_nil_r. split; [reflexivity | simpl; lia].
    + intros Hq Hnew. contradiction.
  - split.
    + exists [new_qubit t now]. split; [reflexivity | simpl; lia].
    + simpl qubits. intros Hq Hnew. apply in_app_or in Hq.
      destruct Hq as [Hq|[Hq|[]]]; [contradiction|]. subst q. simpl.
      repeat split; assumption.
Qed.

(** A hazard drawn onto the player of a fresh game. *)
Lemma spawn_qubit_placement_witness :
  In (new_qubit (0, 9) 1%float)
     (qubits (spawn_qubit (new_game 0 0) 1%float (same_draw 0 9))) /\
  ~ In (new_qubit (0, 9) 1%float) (qubits (new_game 0 0)) /\
  grid_pos (new_qubit (0, 9) 1%float) <> goal (new_game 0 0) /\
  player (new_game 0 0) = grid_pos (new_qubit (0, 9) 1%float).
Proof.
  assert (Hin : In (new_qubit (0, 9) 1%float)
                   (qubits (spawn_qubit (new_game 0 0) 1%float (same_draw 0 9))))
    by (left; reflexivity).
  assert (Hnew : ~ In (new_qubit (0, 9) 1%float) (qubits (new_game 0 0)))
    by (intros []).
  split; [exact Hin|]. split; [exact Hnew|]. split; [|reflexivity].
  exact (proj1 (proj2 (proj2 (proj2
           (proj2 (spawn_qubit_placement (new_game 0 0) 1%float (same_draw 0 9)
                     (new_qubit (0, 9) 1%float)) Hin Hnew))))).
Defined.

Lemma NoDup_snoc {A : Type} (l : list A) (a : A) :
  NoDup l -> ~ In a l -> NoDup (l ++ [a]).
Proof.
  induction l as [|b l IH]; simpl; intros Hnd Hnot.
  - constructor; [intros [] | constructor].
  - inversion Hnd as [|? ? Hb Hl]; subst. constructor.
    + rewrite in_app_iff. simpl. intros [H|[H|[]]]; [contradiction|].
      apply Hnot. left. symmetry. exact H.
    + apply IH; [exact Hl|]. intros H. apply Hnot. right. exact H.
Qed.

Lemma NoDup_map_filter {A B : Type} (h : A -> B) (f : A -> bool) (l : list A) :
  NoDup (map h l) -> NoDup (map h (filter f l)).
Proof.
  induction l as [|a l IH]; simpl; intros Hnd; [constructor|].
  inversion Hnd as [|? ? Ha Hl]; subst.
  destruct (f a); simpl; [|apply IH; exact Hl].
  constructor; [|apply IH; exact Hl].
  intros Hin. apply Ha. apply in_map_iff in Hin.
  destruct Hin as (x & Hx & Hin). apply filter_In in Hin.
  apply in_map_iff. exists x. split; [exact Hx | apply Hin].
Qed.

(** The purge after a spawn keeps the hazards on pairwise distinct tiles:
    the dead ones go, and the new one stands where no alive one does. *)
Lemma purge_distinct (qs : list Qubit) (t : tile) (now : float) :
  NoDup (map grid_pos qs) ->
  occupied qs t now = false ->
  NoDup (map grid_pos
           (filter (fun q => is_alive q now) (qs ++ [new_qubit t now]))).
Proof.
  intros Hnd Hfree. rewrite filter_app, map_app.
  assert (Hold : NoDup (map grid_pos (filter (fun q => is_alive q now) qs)))
    by (apply NoDup_map_filter; exact Hnd).
  simpl filter. destruct (is_alive (new_qubit t now) now); simpl map.
  - apply NoDup_snoc; [exact Hold|].
    intros Hin. apply in_map_iff in Hin. destruct Hin as (q & Hq & Hin).
    apply filter_In in Hin. destruct Hin as [Hin Halive].
    assert (Hocc : occupied qs t now = true)
      by (apply occupied_spec; exists q; auto).
    congruence.
  - rewrite app_nil_r. exact Hold.
Qed.

(** The hazards [update] leaves are those of the state that are alive at
    [now], followed by at most one new hazard. *)
Lemma update_qubits_cases (g : Game) (now : float) (draws : nat -> Z * Z) (u : Z) :
  qubits (update g now draws u) = filter (fun q => is_alive q now) (qubits g) \/
  exists t,
    in_bounds t = true /\ t <> goal g /\ occupied (qubits g) t now = false /\
    running g = true /\ (next_spawn_time g <=? now)%float = true /\
    qubits (update g now draws u)
    = filter (fun q => is_alive q now) (qubits g ++ [new_qubit t now]).
Proof.
  rewrite update_qubits. unfold after_spawn.
  destruct ((next_spawn_time g <=? now)%float && running g) eqn:Hdue;
    [|left; reflexivity].
  apply andb_prop in Hdue. destruct Hdue as [Hdue Hrun].
  destruct (spawn_qubit_placed g now draws)
    as [Heq|(t & Hin & Hgoal & Hfree & _ & Heq)]; rewrite Heq.
  - left. reflexivity.
  - right. exists t. repeat split; assumption.
Qed.

(** The hazards of a reachable state are well placed and stand on
    pairwise distinct tiles. *)
Lemma reachable_hazards (g : Game) :
  reachable g ->
  (forall q, In q (qubits g) -> well_placed g q) /\
  NoDup (map grid_pos (qubits g)).
Proof.
  induction 1 as [now u|g dx dy now Hg IH|g now draws u Hg IH|g now u Hg IH].
  - split; [intros q [] | constructor].
  - rewrite try_move_qubits.
    assert (Hgoal : goal (try_move g dx dy now) = goal g).
    { destruct (try_move_cases g dx dy now) as [H|(_ & _ & _ & [H|[H|H]])];
        rewrite H; reflexivity. }
    unfold well_placed. rewrite Hgoal. exact IH.
  - destruct IH as [IHq IHd].
    assert (Hgoal : goal (update g now draws u) = goal g).
    { destruct (after_spawn_fields g now draws u) as (_ & Hgl & _).
      cbv zeta in Hgl.
      destruct (update_unfold g now draws u) as [H|[H _]]; rewrite H;
        exact Hgl. }
    unfold well_placed. rewrite Hgoal.
    destruct (update_qubits_cases g now draws u)
      as [Heq|(t & Hin & Hng & Hfree & _ & _ & Heq)]; rewrite Heq.
    + split; [|apply NoDup_map_filter; exact IHd].
      intros q Hq. apply filter_In in Hq. apply IHq. apply Hq.
    + split; [|apply purge_distinct; assumption].
      intros q Hq. apply filter_In in Hq. destruct Hq as [Hq _].
      apply in_app_or in Hq. destruct Hq as [Hq|[Hq|[]]]; [apply IHq; exact Hq|].
      subst q. simpl. repeat split; assumption.
  - split; [intros q [] | constructor].
Qed.

(** X2. In every reachable state each hazard stands on a tile of the grid
    other than the goal and has the default lifetime, and no two entries
    of the hazard list stand on the same tile. *)
Theorem hazards_well_placed (g : Game) (i j : nat) (q1 q2 : Qubit) :
  reachable g ->
  (forall q, In q (qubits g) ->
     in_bounds (grid_pos q) = true /\ grid_pos q <> goal g /\
     lifetime q = QUBIT_LIFETIME) /\
  (nth_error (qubits g) i = Some q1 -> nth_error (qubits g) j = Some q2 ->
   grid_pos q1 = grid_pos q2 -> i = j).
Proof.
  intros Hreach. destruct (reachable_hazards g Hreach) as [Hq Hd].
  split; [exact Hq|].
  intros H1 H2 Hsame.
  assert (Hi : (i < length (map grid_pos (qubits g)))%nat).
  { rewrite length_map. apply nth_error_Some. congruence. }
  apply (proj1 (NoDup_nth_error (map grid_pos (qubits g))) Hd i j Hi).
  rewrite !nth_error_map, H1, H2. simpl. congruence.
Qed.

(** After an update that spawns on (3, 4): the one hazard is off the
    goal. *)
Lemma hazards_well_placed_witness :
  In (new_qubit (3, 4) 1%float)
     (qubits (update (new_game 0 0) 1%float (same_draw 3 4) 0)) /\
  well_placed (update (new_game 0 0) 1%float (same_draw 3 4) 0)
    (new_qubit (3, 4) 1%float).
Proof.
  assert (Hin : In (new_qubit (3, 4) 1%float)
                   (qubits (update (new_game 0 0) 1%float (same_draw 3 4) 0)))
    by (left; reflexivity).
  split; [exact Hin|].
  exact (proj1 (hazards_well_placed _ 0 0 old_hazard old_hazard
                  (reach_update _ 1%float (same_draw 3 4) 0 (reach_init 0 0)))
               _ Hin).
Defined.

(** A reachable state is never paused: no method sets [pause]. *)
Lemma reachable_unpaused (g : Game) : reachable g -> pause g = false.
Proof.
  induction 1 as [now u|g dx dy now Hg IH|g now draws u Hg IH|g now u Hg IH].
  - reflexivity.
  - destruct (try_move_cases g dx dy now) as [H|(_ & _ & _ & [H|[H|H]])];
      rewrite H; exact IH.
  - destruct (after_spawn_fields g now draws u)
      as (_ & _ & _ & _ & _ & _ & _ & Hz).
    cbv zeta in Hz.
    destruct (update_unfold g now draws u) as [H|[H _]]; rewrite H; simpl;
      rewrite Hz; exact IH.
  - reflexivity.
Qed.

(** The goal tile of a reachable state holds no hazard. *)
Lemma goal_is_free (g : Game) (now : float) :
  reachable g -> occupied (qubits g) (goal g) now = false.
Proof.
  intros Hreach. apply occupied_free. intros q Hin Hpos. exfalso.
  destruct (proj1 (reachable_hazards g Hreach) q Hin) as (_ & Hne & _).
  contradiction.
Qed.

(** The flags of a reachable state encode a phase. *)
Lemma reachable_phase (g : Game) : reachable g -> exists p, phase g = Some p.
Proof.
  induction 1 as [now u|g dx dy now Hg IH|g now draws u Hg IH|g now u Hg IH].
  - exists Playing. reflexivity.
  - destruct (try_move_cases g dx dy now)
      as [H|(Hr & _ & _ & [H|[H|H]])]; rewrite H; try exact IH;
      destruct IH as [p Hp]; unfold phase in *; simpl; rewrite Hr in Hp;
      destruct (win g), (lose g); try discriminate Hp; eauto.
  - destruct (after_spawn_fields g now draws u)
      as (_ & _ & _ & _ & Hr & Hw & Hl & _).
    cbv zeta in *. destruct IH as [p Hp].
    destruct (update_unfold g now draws u) as [H|[H Hrun]]; rewrite H;
      unfold phase in *; simpl; rewrite ?Hr, ?Hw, ?Hl.
    + eauto.
    + rewrite Hrun in Hp.
      destruct (win g), (lose g); try discriminate Hp; eauto.
  - exists Playing. reflexivity.
Qed.

Lemma reachable_running (g : Game) :
  reachable g -> running g = true -> phase g = Some Playing.
Proof.
  intros Hreach Hrun. destruct (reachable_phase g Hreach) as [p Hp].
  rewrite Hp. unfold phase in Hp. rewrite Hrun in Hp.
  destruct (win g), (lose g); try discriminate Hp. congruence.
Qed.

(** X3. The goal is never blocked. In a reachable state that is still
    running, a move whose destination is the goal tile is committed and
    wins, at any time: no hazard is ever on the goal to turn it into a
    loss. *)
Theorem goal_move_wins (g : Game) (dx dy : Z) (now : float) :
  reachable g -> running g = true ->
  (fst (player g) + dx, snd (player g) + dy) = goal g ->
  player (try_move g dx dy now) = goal g /\
  phase (try_move g dx dy now) = Some Won /\
  qubits (try_move g dx dy now) = qubits g.
Proof.
  intros Hreach Hrun Hdest.
  pose proof (reachable_unpaused g Hreach) as Hpause.
  pose proof (reachable_running g Hreach Hrun) as Hp.
  apply phase_playing in Hp. destruct Hp as (_ & Hw & Hl).
  destruct (reachable_tiles g Hreach) as [_ Hgoal].
  assert (Hin : in_bounds (goal g) = true) by (rewrite Hgoal; reflexivity).
  assert (Heq : try_move g dx dy now = set_win (set_player g (goal g))).
  { unfold try_move. rewrite Hrun, Hpause. simpl negb. cbv iota zeta.
    rewrite Hdest, Hin. simpl player. simpl qubits. simpl goal.
    rewrite (goal_is_free g now Hreach), tile_eqb_refl. reflexivity. }
  rewrite Heq. split; [reflexivity|]. split; [|reflexivity].
  unfold phase. simpl. rewrite Hl. reflexivity.
Qed.

Lemma reachable_walk (g : Game) (moves : list (Z * Z)) (now : float) :
  reachable g -> reachable (walk g moves now).
Proof.
  unfold walk. revert g. induction moves as [|m moves IH]; intros g Hg.
  - exact Hg.
  - simpl. apply IH. apply reach_try_move. exact Hg.
Qed.

(** The last step of the direct way to the goal. *)
Lemma goal_move_wins_witness :
  running below_goal = true /\
  (fst (player below_goal) + 0, snd (player below_goal) + -1) = goal below_goal /\
  phase (try_move below_goal 0 (-1) 7%float) = Some Won.
Proof.
  assert (Hreach : reachable below_goal)
    by (apply reachable_walk; apply reach_init).
  split; [reflexivity|]. split; [reflexivity|].
  exact (proj1 (proj2 (goal_move_wins below_goal 0 (-1) 7%float
                         Hreach eq_refl eq_refl))).
Defined.

(** ** Hazards and the clock *)

Module FloatClock.

(** [is_finite] excludes the infinities and NaN of [spec_float]. *)
Lemma is_finite_SF (x : float) :
  is_finite x = true -> FloatFacts.SFfinite (Prim2SF x) = true.
Proof.
  unfold is_finite, is_nan, is_infinity.
  rewrite !FloatAxioms.eqb_spec, FloatAxioms.abs_spec.
  change (Prim2SF infinity) with (S754_infinity false).
  destruct (Prim2SF x) as [s|s| |s m e]; simpl; try reflexivity.
  - destruct s; discriminate.
  - discriminate.
Qed.

(** A finite number minus itself is [+0]. *)
Lemma sub_diag (x : float) :
  is_finite x = true -> Prim2SF (x - x)%float = S754_zero false.
Proof.
  intros Hfin. apply is_finite_SF in Hfin.
  rewrite FloatAxioms.sub_spec. unfold SF64sub.
  destruct (Prim2SF x) as [s|s| |s m e]; try discriminate Hfin.
  - destruct s; reflexivity.
  - unfold SFsub. rewrite Z.min_id.
    unfold shl_align. rewrite Z.sub_diag. cbv iota. simpl fst.
    rewrite ?Z.sub_diag. reflexivity.
Qed.

End FloatClock.

(** A hazard is alive at the finite time it is born. *)
Lemma newborn_alive (t : tile) (now : float) :
  is_finite now = true -> is_alive (new_qubit t now) now = true.
Proof.
  intros Hfin. unfold is_alive, age. simpl.
  rewrite FloatAxioms.ltb_spec, (FloatClock.sub_diag now Hfin). reflexivity.
Qed.

Lemma after_spawn_keeps (g : Game) (now : float) (draws : nat -> Z * Z) (u : Z)
  (q : Qubit) :
  In q (qubits g) -> In q (qubits (after_spawn g now draws u)).
Proof.
  intros Hin. unfold after_spawn.
  destruct (spawn_qubit_placed g now draws) as [Heq|(t & _ & _ & _ & _ & Heq)];
    rewrite Heq; split_ifs; simpl; try exact Hin.
  apply in_or_app. left. exact Hin.
Qed.

(** An alive hazard under the player after the spawn step ends a running
    game that has not been won: [update] stops at the collision test. *)
Lemma update_hit (g : Game) (now : float) (draws : nat -> Z * Z) (u : Z)
  (q : Qubit) :
  running g = true -> win g = false ->
  In q (qubits (after_spawn g now draws u)) ->
  grid_pos q = player g -> is_alive q now = true ->
  phase (update g now draws u) = Some Lost /\
  In q (qubits (update g now draws u)).
Proof.
  intros Hrun Hwin Hin Hpos Halive.
  destruct (after_spawn_fields g now draws u)
    as (_ & _ & Hp1 & _ & Hr1 & Hw1 & _).
  cbv zeta in *.
  assert (Hkept : In q (qubits (update g now draws u))).
  { rewrite update_qubits. apply filter_In. split; assumption. }
  split; [|exact Hkept].
  unfold update. fold (after_spawn g now draws u). cbv zeta.
  set (g1 := after_spawn g now draws u) in *.
  set (g2 := set_qubits g1 (filter (fun q => is_alive q now) (qubits g1))).
  assert (Hhit : existsb (fun q => tile_eqb (grid_pos q) (player g2)
                                   && is_alive q now && running g2)
                         (qubits g2) = true).
  { apply existsb_exists. exists q. split.
    - simpl. apply filter_In. split; assumption.
    - simpl. rewrite Hp1, Hr1, Hrun, Halive, Hpos, tile_eqb_refl. reflexivity. }
  rewrite Hhit. unfold phase. simpl. rewrite Hw1, Hwin. reflexivity.
Qed.

(** X4. Contact on update. From phase Playing, when a hazard of the state
    stands on the player's tile and is alive at [now], [update] ends the
    run in phase Lost, whatever is spawned and however much time is left;
    the hazard is still in the list. *)
Theorem update_collision (g : Game) (now : float) (draws : nat -> Z * Z) (u : Z)
  (q : Qubit) :
  phase g = Some Playing ->
  In q (qubits g) -> grid_pos q = player g -> is_alive q now = true ->
  phase (update g now draws u) = Some Lost /\
  In q (qubits (update g now draws u)).
Proof.
  intros Hp Hin Hpos Halive.
  apply phase_playing in Hp. destruct Hp as (Hrun & Hwin & _).
  apply update_hit; try assumption.
  apply after_spawn_keeps. exact Hin.
Qed.

(** A hazard forced onto the start tile of a fresh game. *)
Lemma update_collision_witness :
  phase cornered = Some Playing /\
  In (new_qubit (0, 9) 0%float) (qubits cornered) /\
  grid_pos (new_qubit (0, 9) 0%float) = player cornered /\
  is_alive (new_qubit (0, 9) 0%float) 0.1%float = true /\
  phase (update cornered 0.1%float (same_draw 5 5) 0) = Some Lost.
Proof.
  assert (Hin : In (new_qubit (0, 9) 0%float) (qubits cornered))
    by (left; reflexivity).
  split; [reflexivity|]. split; [exact Hin|]. split; [reflexivity|].
  split; [reflexivity|].
  exact (proj1 (update_collision cornered 0.1%float (same_draw 5 5) 0
                  (new_qubit (0, 9) 0%float) eq_refl Hin eq_refl eq_refl)).
Defined.

(** Below the cap, the spawn goes to the first draw that is not
    rejected. *)
Lemma spawn_qubit_first (g : Game) (now : float) (draws : nat -> Z * Z) (i : nat) :
  (length (qubits g) < MAX_ACTIVE_QUBITS)%nat -> (i < 50)%nat ->
  rejected g now (drawn draws i) = false ->
  (forall j, (j < i)%nat -> rejected g now (drawn draws j) = true) ->
  spawn_qubit g now draws
  = set_qubits g (qubits g ++ [new_qubit (drawn draws i) now]).
Proof.
  intros Hcap Hi Hfree Hprev. unfold spawn_qubit.
  apply Nat.leb_gt in Hcap. rewrite Hcap.
  destruct (spawn_loop_cases g now draws 50 0)
    as [[Hall _]|(k & Hk & Hok & Hbefore & Heq)].
  - rewrite Hall in Hfree by lia. discriminate Hfree.
  - destruct (Nat.lt_trichotomy i k) as [Hlt|[->|Hgt]].
    + rewrite Hbefore in Hfree by lia. discriminate Hfree.
    + exact Heq.
    + rewrite Hprev in Hok by lia. discriminate Hok.
Qed.

(** X5. A spawn that is due shows. From phase Playing, at a finite clock
    reading not before [next_spawn_time], below the cap, when draw [i] of
    the 50 is the first not rejected, the state [update] returns holds
    the new hazard on the drawn tile, and the next spawn is scheduled at
    [now + uniform(SPAWN_INTERVAL_MIN, SPAWN_INTERVAL_MAX)]. When the
    drawn tile is the player's, the same update ends the run in phase
    Lost. *)
Theorem update_spawns (g : Game) (now : float) (draws : nat -> Z * Z) (u : Z)
  (i : nat) :
  phase g = Some Playing -> is_finite now = true ->
  (next_spawn_time g <=? now)%float = true ->
  (length (qubits g) < MAX_ACTIVE_QUBITS)%nat -> (i < 50)%nat ->
  rejected g now (drawn draws i) = false ->
  (forall j, (j < i)%nat -> rejected g now (drawn draws j) = true) ->
  In (new_qubit (drawn draws i) now) (qubits (update g now draws u)) /\
  next_spawn_time (update g now draws u)
  = (now + uniform SPAWN_INTERVAL_MIN SPAWN_INTERVAL_MAX u)%float /\
  (drawn draws i = player g -> phase (update g now draws u) = Some Lost).
Proof.
  intros Hp Hfin Hdue Hcap Hi Hfree Hprev.
  apply phase_playing in Hp. destruct Hp as (Hrun & Hwin & _).
  assert (Hspawned : after_spawn g now draws u
            = set_next_spawn_time
                (set_qubits g (qubits g ++ [new_qubit (drawn draws i) now]))
                (now + uniform SPAWN_INTERVAL_MIN SPAWN_INTERVAL_MAX u)%float).
  { unfold after_spawn. rewrite Hdue, Hrun. simpl andb. cbv iota.
    rewrite (spawn_qubit_first g now draws i Hcap Hi Hfree Hprev).
    reflexivity. }
  assert (Hnew : In (new_qubit (drawn draws i) now)
                    (qubits (after_spawn g now draws u))).
  { rewrite Hspawned. simpl. apply in_or_app. right. left. reflexivity. }
  pose proof (newborn_alive (drawn draws i) now Hfin) as Halive.
  split; [|split].
  - rewrite update_qubits. apply filter_In. split; assumption.
  - destruct (update_unfold g now draws u) as [H|[H _]]; rewrite H;
      rewrite Hspawned; reflexivity.
  - intros Hon. apply (update_hit g now draws u _ Hrun Hwin Hnew);
      [exact Hon | exact Halive].
Qed.

(** The first update of a fresh game that is due, drawing the player's
    tile (0, 9). *)
Lemma update_spawns_witness :
  phase (new_game 0 0) = Some Playing /\
  (next_spawn_time (new_game 0 0) <=? 1)%float = true /\
  rejected (new_game 0 0) 1%float (drawn (same_draw 0 9) 0) = false /\
  drawn (same_draw 0 9) 0 = player (new_game 0 0) /\
  phase (update (new_game 0 0) 1%float (same_draw 0 9) 0) = Some Lost.
Proof.
  split; [reflexivity|]. split; [reflexivity|]. split; [reflexivity|].
  split; [reflexivity|].
  refine (proj2 (proj2 (update_spawns (new_game 0 0) 1%float (same_draw 0 9) 0
                          0%nat eq_refl eq_refl eq_refl _ _ eq_refl _))
                eq_refl).
  - unfold MAX_ACTIVE_QUBITS. simpl. lia.
  - lia.
  - intros j Hj. lia.
Defined.

(** X6. No spawn off schedule. Before [next_spawn_time], or once the run
    has ended, [update] adds no hazard and leaves the schedule alone: the
    list it returns is the old one without the hazards dead at [now]. *)
Theorem update_idle (g : Game) (now : float) (draws : nat -> Z * Z) (u : Z) :
  (next_spawn_time g <=? now)%float = false \/ running g = false ->
  qubits (update g now draws u) = filter (fun q => is_alive q now) (qubits g) /\
  next_spawn_time (update g now draws u) = next_spawn_time g.
Proof.
  intros Hidle.
  assert (Hsame : after_spawn g now draws u = g).
  { unfold after_spawn. destruct Hidle as [H|H]; rewrite H;
      [reflexivity | rewrite andb_false_r; reflexivity]. }
  split.
  - rewrite update_qubits, Hsame. reflexivity.
  - destruct (update_unfold g now draws u) as [H|[H _]]; rewrite H, Hsame;
      reflexivity.
Qed.

(** A fresh game updated at time 0.1, before its first spawn is due. *)
Lemma update_idle_witness :
  (next_spawn_time (new_game 0 0) <=? 0.1)%float = false /\
  qubits (update (new_game 0 0) 0.1%float (same_draw 3 4) 0) = [] /\
  next_spawn_time (update (new_game 0 0) 0.1%float (same_draw 3 4) 0)
  = next_spawn_time (new_game 0 0).
Proof.
  split; [reflexivity|].
  exact (update_idle (new_game 0 0) 0.1%float (same_draw 3 4) 0
           (or_introl eq_refl)).
Defined.

(** ** Input and the main loop *)

Lemma handle_event_reachable (g g' : Game) (ev : event) (now : float) (u : Z) :
  reachable g -> handle_event g ev now u = Continue g' -> reachable g'.
Proof.
  intros Hg H. unfold handle_event in H.
  destruct ev as [|k|]; [discriminate H| |injection H as <-; exact Hg].
  destruct k; try discriminate H; destruct (win g || lose g);
    injection H as <-;
    first [exact Hg | apply reach_reset; exact Hg
          | apply reach_try_move; exact Hg].
Qed.

Lemma handle_input_reachable (g g' : Game) (events : list (event * float * Z)) :
  reachable g -> handle_input g events = Continue g' -> reachable g'.
Proof.
  revert g. induction events as [|[[ev now] u] rest IH]; intros g Hg H.
  - injection H as <-. exact Hg.
  - simpl in H. destruct (handle_event g ev now u) as [g1|c] eqn:Hev;
      [|discriminate H].
    apply (IH g1); [|exact H].
    apply (handle_event_reachable g g1 ev now u Hg Hev).
Qed.

Lemma frame_reachable (g g' : Game) (f : frame_input) :
  reachable g -> frame g f = Continue g' -> reachable g'.
Proof.
  intros Hg H. unfold frame in H.
  destruct (handle_input g (frame_events f)) as [g1|c] eqn:Hin;
    [|discriminate H].
  pose proof (handle_input_reachable g g1 _ Hg Hin) as Hg1.
  injection H as <-. destruct (running g1); [apply reach_update|]; exact Hg1.
Qed.

Lemma reachable_in_grid (g : Game) : reachable g -> in_bounds (player g) = true.
Proof.
  induction 1 as [now u|g dx dy now Hg IH|g now draws u Hg IH|g now u Hg IH].
  - reflexivity.
  - destruct (try_move_cases g dx dy now)
      as [H|(_ & _ & Hin & [H|[H|H]])]; rewrite H; assumption.
  - rewrite update_player. exact IH.
  - simpl. rewrite (proj1 (reachable_tiles g Hg)). reflexivity.
Qed.

Lemma reachable_capped (g : Game) :
  reachable g -> (length (qubits g) <= MAX_ACTIVE_QUBITS)%nat.
Proof.
  induction 1 as [now u|g dx dy now Hg IH|g now draws u Hg IH|g now u Hg IH].
  - simpl. apply Nat.le_0_l.
  - rewrite try_move_qubits. exact IH.
  - rewrite update_qubits.
    eapply Nat.le_trans; [apply filter_length_le|].
    apply after_spawn_length. exact IH.
  - simpl. apply Nat.le_0_l.
Qed.

(** X7. The game as it is played stays within the reachable states: after
    any number of iterations of the main loop from the constructed game,
    on any events, clock readings and draws, the state is one of them.
    So the player is on the grid, the hazards are at most
    [MAX_ACTIVE_QUBITS] and none is on the goal, and the flags encode a
    phase. *)
Theorem run_frames_reachable (now : float) (u : Z) (frames : list frame_input)
  (g : Game) :
  run_frames (new_game now u) frames = Continue g ->
  reachable g /\
  in_bounds (player g) = true /\
  (length (qubits g) <= MAX_ACTIVE_QUBITS)%nat /\
  (forall t, occupied (qubits g) (goal g) t = false) /\
  (exists p, phase g = Some p).
Proof.
  intros Hrun.
  assert (Hreach : reachable g).
  { pose proof (reach_init now u) as H0. revert Hrun H0.
    generalize (new_game now u). induction frames as [|f rest IH];
      intros g0 Hrun H0.
    - injection Hrun as <-. exact H0.
    - simpl in Hrun. destruct (frame g0 f) as [g1|c] eqn:Hf;
        [|discriminate Hrun].
      apply (IH g1 Hrun). apply (frame_reachable g0 g1 f H0 Hf). }
  split; [exact Hreach|]. split; [apply reachable_in_grid; exact Hreach|].
  split; [apply reachable_capped; exact Hreach|].
  split; [intros t; apply goal_is_free; exact Hreach|].
  apply reachable_phase. exact Hreach.
Qed.

(** One frame with the right arrow pressed: the player is on (1, 9). *)
Lemma run_frames_reachable_witness :
  exists g, run_frames (new_game 0 0) [right_frame] = Continue g /\
            player g = (1, 9) /\ in_bounds (player g) = true.
Proof.
  eexists. split; [reflexivity|]. split; [reflexivity|].
  exact (proj1 (proj2 (run_frames_reachable 0 0 [right_frame] _ eq_refl))).
Defined.

Lemma handle_event_exit (g : Game) (ev : event) (now : float) (u : Z) :
  (is_quit ev = true -> handle_event g ev now u = Exit 0) /\
  (is_quit ev = false -> exists g', handle_event g ev now u = Continue g').
Proof.
  destruct ev as [|k|]; simpl.
  - split; [reflexivity | discriminate].
  - destruct k; simpl; (split; [try reflexivity; discriminate|]);
      try discriminate; intros _; destruct (win g || lose g); eauto.
  - split; [discriminate | eauto].
Qed.

Lemma handle_input_exit (g : Game) (events : list (event * float * Z)) :
  (existsb is_quit (events_of events) = true -> handle_input g events = Exit 0) /\
  (existsb is_quit (events_of events) = false ->
   exists g', handle_input g events = Continue g').
Proof.
  revert g. induction events as [|[[ev now] u] rest IH]; intros g; simpl.
  - split; [discriminate | eauto].
  - destruct (handle_event_exit g ev now u) as [Hq Hc].
    destruct (is_quit ev); simpl.
    + split; [|discriminate]. intros _. rewrite (Hq eq_refl). reflexivity.
    + destruct (Hc eq_refl) as [g1 Hg1]. rewrite Hg1. apply IH.
Qed.

(** X8. Leaving. The main loop ends only through [sys.exit(0)], and does
    so exactly when a close request, Escape or Q is among the events it
    is given, in whatever state the game is; events queued behind it and
    later frames are not processed. *)
Theorem run_frames_exit (g : Game) (frames : list frame_input) :
  (existsb is_quit (all_events frames) = true -> run_frames g frames = Exit 0) /\
  (existsb is_quit (all_events frames) = false ->
   exists g', run_frames g frames = Continue g') /\
  (forall code, run_frames g frames = Exit code -> code = 0).
Proof.
  assert (Hboth :
    (existsb is_quit (all_events frames) = true -> run_frames g frames = Exit 0) /\
    (existsb is_quit (all_events frames) = false ->
     exists g', run_frames g frames = Continue g')).
  { revert g. induction frames as [|f rest IH]; intros g; simpl.
    - split; [discriminate | eauto].
    - unfold all_events in *. simpl. rewrite existsb_app. unfold frame.
      destruct (handle_input_exit g (frame_events f)) as [Hq Hc].
      destruct (existsb is_quit (events_of (frame_events f))); simpl.
      + split; [|discriminate]. intros _. rewrite (Hq eq_refl). reflexivity.
      + destruct (Hc eq_refl) as [g1 Hg1]. rewrite Hg1. apply IH. }
  destruct Hboth as [Hq Hc]. split; [exact Hq|]. split; [exact Hc|].
  intros code Hexit.
  destruct (existsb is_quit (all_events frames)) eqn:E.
  - rewrite (Hq eq_refl) in Hexit. injection Hexit as <-. reflexivity.
  - destruct (Hc eq_refl) as [g' Hg']. congruence.
Qed.

(** Closing the window in the second frame. *)
Lemma run_frames_exit_witness :
  existsb is_quit (all_events [right_frame; closing_frame]) = true /\
  run_frames (new_game 0 0) [right_frame; closing_frame] = Exit 0 /\
  existsb is_quit (all_events [right_frame]) = false.
Proof.
  split; [reflexivity|]. split; [|reflexivity].
  exact (proj1 (run_frames_exit (new_game 0 0) [right_frame; closing_frame])
               eq_refl).
Defined.

Lemma handle_input_ended (g : Game) (events : list (event * float * Z)) :
  running g = false ->
  existsb is_quit (events_of events) = false ->
  existsb is_restart (events_of events) = false ->
  handle_input g events = Continue g.
Proof.
  intros Hstop. induction events as [|[[ev now] u] rest IH]; simpl;
    [reflexivity|].
  intros Hq Hr. apply orb_false_elim in Hq. apply orb_false_elim in Hr.
  destruct Hq as [Hq Hqs], Hr as [Hr Hrs].
  assert (Hev : handle_event g ev now u = Continue g).
  { unfold handle_event. destruct ev as [|k|]; [discriminate Hq| |reflexivity].
    destruct k; try discriminate Hq; try discriminate Hr;
      destruct (win g || lose g); try reflexivity;
      unfold try_move; rewrite Hstop; reflexivity. }
  rewrite Hev. apply IH; assumption.
Qed.

(** X9. After the end the game is frozen. Once [running] is false, frames
    whose events hold no R and no quit leave the whole state as it is:
    arrow keys are ignored, [update] is not called, so hazards are
    neither spawned nor purged and a win is never turned into a loss. *)
Theorem run_frames_ended (g : Game) (frames : list frame_input) :
  running g = false ->
  existsb is_quit (all_events frames) = false ->
  existsb is_restart (all_events frames) = false ->
  run_frames g frames = Continue g.
Proof.
  intros Hstop. unfold all_events.
  induction frames as [|f rest IH]; simpl; [reflexivity|].
  rewrite !existsb_app. intros Hq Hr.
  apply orb_false_elim in Hq. apply orb_false_elim in Hr.
  destruct Hq as [Hq Hqs], Hr as [Hr Hrs].
  unfold frame. rewrite (handle_input_ended g _ Hstop Hq Hr), Hstop.
  apply IH; assumption.
Qed.

(** The ambushed game, lost, through two frames of arrow keys. *)
Lemma run_frames_ended_witness :
  running ambushed = false /\
  run_frames ambushed [right_frame; right_frame] = Continue ambushed.
Proof.
  split; [reflexivity|].
  exact (run_frames_ended ambushed [right_frame; right_frame]
           eq_refl eq_refl eq_refl).
Defined.

(** X10. Restart. In a reachable state the R key does nothing while the
    game is running; after the end it starts a new run: phase Playing,
    the player on the start tile (0, 9), no hazards, the timer started at
    the clock reading of the key press. *)
Theorem restart_key (g : Game) (now : float) (u : Z) :
  reachable g ->
  (running g = true ->
   handle_input g [(KEYDOWN K_r, now, u)] = Continue g) /\
  (running g = false ->
   exists g', handle_input g [(KEYDOWN K_r, now, u)] = Continue g' /\
              phase g' = Some Playing /\ player g' = (0, GRID_ROWS - 1) /\
              qubits g' = [] /\ start_time g' = now).
Proof.
  intros Hreach. destruct (reachable_phase g Hreach) as [p Hp].
  destruct (reachable_tiles g Hreach) as [Hstart _].
  unfold phase in Hp. simpl. split; intros Hrun; rewrite Hrun in Hp.
  - destruct (win g), (lose g); try discriminate Hp. reflexivity.
  - exists (reset g now u).
    destruct (win g), (lose g); try discriminate Hp; simpl;
      rewrite Hstart; repeat split.
Qed.

(** R pressed in the ambushed game, lost, and in a fresh one. *)
Lemma restart_key_witness :
  running ambushed = false /\
  handle_input ambushed [(KEYDOWN K_r, 3%float, 0)]
  = Continue (reset ambushed 3%float 0) /\
  handle_input (new_game 0 0) [(KEYDOWN K_r, 3%float, 0)]
  = Continue (new_game 0 0).
Proof.
  split; [reflexivity|]. split; [reflexivity|].
  exact (proj1 (restart_key (new_game 0 0) 3%float 0 (reach_init 0 0))
               eq_refl).
Defined.

(** ** The direct way *)

Lemma no_presses_left (events : list (event * float * Z)) :
  Forall toward_goal (events_of events) ->
  presses (KEYDOWN K_RIGHT) events = 0%nat ->
  presses (KEYDOWN K_UP) events = 0%nat ->
  events = [].
Proof.
  destruct events as [|[[ev now] u] rest]; [reflexivity|].
  unfold presses. simpl. intros Hall Hr Hu. exfalso.
  inversion Hall as [|? ? [Hev|Hev] _]; subst ev.
  - destruct (event_eq_dec (KEYDOWN K_RIGHT) (KEYDOWN K_RIGHT));
      [discriminate Hr | contradiction].
  - destruct (event_eq_dec (KEYDOWN K_UP) (KEYDOWN K_UP));
      [discriminate Hu | contradiction].
Qed.

(** Without hazards a move into the grid is committed, and wins exactly on
    the goal. *)
Lemma try_move_clear (g : Game) (c r dx dy : Z) (now : float) :
  on_the_way g c r -> in_bounds (c + dx, r + dy) = true ->
  (c + dx, r + dy) <> (GRID_COLS - 1, 0) ->
  on_the_way (try_move g dx dy now) (c + dx) (r + dy).
Proof.
  intros (Hq & Hg & Hrun & Hw & Hl & Hz & Hp) Hin Hne.
  unfold try_move. rewrite Hrun, Hz, Hp. simpl negb. cbv iota zeta.
  simpl fst. simpl snd. rewrite Hin. simpl player. simpl qubits. simpl goal.
  rewrite Hq, Hg. simpl occupied. cbv iota.
  apply tile_eqb_neq in Hne. rewrite Hne.
  unfold on_the_way. simpl. repeat split; assumption.
Qed.

Lemma try_move_arrive (g : Game) (c r dx dy : Z) (now : float) :
  on_the_way g c r -> (c + dx, r + dy) = (GRID_COLS - 1, 0) ->
  try_move g dx dy now = set_win (set_player g (GRID_COLS - 1, 0)).
Proof.
  intros (Hq & Hg & Hrun & Hw & Hl & Hz & Hp) Hgoal.
  unfold try_move. rewrite Hrun, Hz, Hp. simpl negb. cbv iota zeta.
  simpl fst. simpl snd. rewrite Hgoal.
  change (in_bounds (GRID_COLS - 1, 0)) with true. cbv iota.
  simpl player. simpl qubits. simpl goal. rewrite Hq, Hg. reflexivity.
Qed.

Lemma direct_way (events : list (event * float * Z)) :
  forall (g : Game) (c r : Z),
  on_the_way g c r -> 0 <= c <= 9 -> 0 <= r <= 9 -> (c, r) <> (9, 0) ->
  Forall toward_goal (events_of events) ->
  Z.of_nat (presses (KEYDOWN K_RIGHT) events) = 9 - c ->
  Z.of_nat (presses (KEYDOWN K_UP) events) = r ->
  exists g', handle_input g events = Continue g' /\
             phase g' = Some Won /\ player g' = (GRID_COLS - 1, 0) /\
             qubits g' = [].
Proof.
  induction events as [|[[ev now] u] rest IH];
    intros g c r Hway Hc Hr Hne Hall Hright Hup.
  - exfalso. unfold presses in Hright, Hup.
    change (events_of []) with (@nil event) in Hright, Hup.
    cbn [count_occ Z.of_nat] in Hright, Hup. apply Hne. f_equal; lia.
  - change (events_of ((ev, now, u) :: rest)) with (ev :: events_of rest)
      in Hall.
    apply Forall_cons_iff in Hall. destruct Hall as [Hev Hrest].
    assert (Hflags : win g || lose g = false).
    { destruct Hway as (_ & _ & _ & -> & -> & _). reflexivity. }
    assert (Hstep : forall dx dy,
              handle_event g ev now u = Continue (try_move g dx dy now) ->
              in_bounds (c + dx, r + dy) = true ->
              Z.of_nat (presses (KEYDOWN K_RIGHT) rest) = 9 - (c + dx) ->
              Z.of_nat (presses (KEYDOWN K_UP) rest) = r + dy ->
              exists g', handle_input g ((ev, now, u) :: rest) = Continue g' /\
                phase g' = Some Won /\ player g' = (GRID_COLS - 1, 0) /\
                qubits g' = []).
    { intros dx dy Hhe Hin Hr' Hu'. simpl handle_input. rewrite Hhe.
      destruct (tile_eqb (c + dx, r + dy) (GRID_COLS - 1, 0)) eqn:Hat.
      - apply tile_eqb_eq in Hat.
        assert (Hnil : rest = []).
        { injection Hat as Hc' Hr''. unfold GRID_COLS in Hc'.
          apply no_presses_left; [exact Hrest| |]; lia. }
        subst rest. rewrite (try_move_arrive g c r dx dy now Hway Hat).
        exists (set_win (set_player g (GRID_COLS - 1, 0))).
        destruct Hway as (Hq & _ & _ & _ & Hl & _).
        split; [reflexivity|]. unfold phase. simpl. rewrite Hl, Hq.
        repeat split.
      - apply tile_eqb_neq in Hat.
        pose proof (try_move_clear g c r dx dy now Hway Hin Hat) as Hway'.
        assert (Hin' := Hin). unfold in_bounds in Hin'. simpl in Hin'.
        rewrite !andb_true_iff, !Z.leb_le, !Z.ltb_lt in Hin'.
        unfold GRID_COLS, GRID_ROWS in Hin'.
        exact (IH _ _ _ Hway' ltac:(lia) ltac:(lia) Hat Hrest Hr' Hu'). }
    unfold presses in Hright, Hup.
    change (events_of ((ev, now, u) :: rest)) with (ev :: events_of rest)
      in Hright, Hup.
    cbn [count_occ] in Hright, Hup.
    destruct Hev as [-> | ->].
    + destruct (event_eq_dec (KEYDOWN K_RIGHT) (KEYDOWN K_RIGHT));
        [|contradiction].
      destruct (event_eq_dec (KEYDOWN K_RIGHT) (KEYDOWN K_UP));
        [discriminate|].
      apply (Hstep 1 0).
      * unfold handle_event. rewrite Hflags. reflexivity.
      * unfold in_bounds, GRID_COLS, GRID_ROWS. simpl.
        rewrite !andb_true_iff, !Z.leb_le, !Z.ltb_lt. lia.
      * unfold presses. lia.
      * unfold presses. lia.
    + destruct (event_eq_dec (KEYDOWN K_UP) (KEYDOWN K_UP));
        [|contradiction].
      destruct (event_eq_dec (KEYDOWN K_UP) (KEYDOWN K_RIGHT));
        [discriminate|].
      apply (Hstep 0 (-1)).
      * unfold handle_event. rewrite Hflags. reflexivity.
      * unfold in_bounds, GRID_COLS, GRID_ROWS. simpl.
        rewrite !andb_true_iff, !Z.leb_le, !Z.ltb_lt. lia.
      * unfold presses. lia.
      * unfold presses. lia.
Qed.

(** X11. The direct way wins. From the constructed game, an event queue
    of nine presses of the right arrow and nine of the up arrow, in any
    order and at any clock readings, brings the player onto the goal and
    ends the run in phase Won; the frame that handles them does not call
    [update], so the win stands whatever the clock of that frame. *)
Theorem direct_way_wins (now : float) (u : Z) (f : frame_input) :
  Forall toward_goal (events_of (frame_events f)) ->
  presses (KEYDOWN K_RIGHT) (frame_events f) = 9%nat ->
  presses (KEYDOWN K_UP) (frame_events f) = 9%nat ->
  exists g,
    handle_input (new_game now u) (frame_events f) = Continue g /\
    frame (new_game now u) f = Continue g /\
    phase g = Some Won /\ player g = goal g.
Proof.
  intros Hall Hright Hup.
  assert (Hway : on_the_way (new_game now u) 0 9)
    by (unfold on_the_way; simpl; repeat split).
  destruct (direct_way (frame_events f) (new_game now u) 0 9 Hway
              ltac:(lia) ltac:(lia) ltac:(discriminate) Hall
              ltac:(rewrite Hright; reflexivity)
              ltac:(rewrite Hup; reflexivity))
    as (g & Hin & Hp & Hpl & _).
  exists g. split; [exact Hin|].
  assert (Hgoal : goal g = (GRID_COLS - 1, 0)).
  { apply (reachable_tiles g).
    apply (handle_input_reachable _ _ _ (reach_init now u) Hin). }
  assert (Hstop : running g = false)
    by (apply phase_ended; left; exact Hp).
  split; [|split; [exact Hp | congruence]].
  unfold frame. rewrite Hin, Hstop. reflexivity.
Qed.

(** Nine times right, then nine times up, in a frame whose clock is long
    past the time budget. *)
Lemma direct_way_wins_witness :
  presses (KEYDOWN K_RIGHT) direct_keys = 9%nat /\
  presses (KEYDOWN K_UP) direct_keys = 9%nat /\
  exists g,
    frame (new_game 0 0) (mkFrame direct_keys 100%float (same_draw 0 9) 0)
    = Continue g /\
    phase g = Some Won.
Proof.
  split; [reflexivity|]. split; [reflexivity|].
  assert (Hall : Forall toward_goal
                   (events_of (frame_events
                      (mkFrame direct_keys 100%float (same_draw 0 9) 0)))).
  { repeat (apply Forall_cons;
            [first [left; reflexivity | right; reflexivity]|]).
    apply Forall_nil. }
  destruct (direct_way_wins 0 0
              (mkFrame direct_keys 100%float (same_draw 0 9) 0)
              Hall eq_refl eq_refl) as (g & _ & Hf & Hp & _).
  exists g. split; [exact Hf | exact Hp].
Defined.

(** ** Drawing *)

Lemma player_radius : py_int (float_of_int TILE_SIZE * 0.36)%float = Ok 23.
Proof. reflexivity. Qed.

(** X12. The player is drawn on the board. In a reachable state
    [draw_player] raises nothing and every circle it draws (body, eyes,
    ring) lies inside the player's tile, and that tile inside the board:
    within the window's width and above the HUD strip. *)
Theorem draw_player_on_board (g : Game) (c : circle) :
  reachable g ->
  exists cs, draw_player g = Ok cs /\ length cs = 4%nat /\
    (In c cs ->
     let (x, y) := grid_to_pixel (player g) in
     circle_within c x y (x + TILE_SIZE) (y + TILE_SIZE) /\
     0 <= x /\ x + TILE_SIZE <= SCREEN_WIDTH /\
     0 <= y /\ y + TILE_SIZE <= SCREEN_HEIGHT - HUD_HEIGHT).
Proof.
  intros Hreach. pose proof (reachable_in_grid g Hreach) as Hin.
  unfold in_bounds in Hin.
  rewrite !andb_true_iff, !Z.leb_le, !Z.ltb_lt in Hin.
  unfold draw_player, grid_to_pixel.
  destruct (player g) as [col row]. simpl fst in Hin. simpl snd in Hin.
  rewrite player_radius. simpl bind.
  eexists. split; [reflexivity|]. split; [reflexivity|].
  unfold GRID_COLS, GRID_ROWS in Hin.
  unfold SCREEN_WIDTH, SCREEN_HEIGHT, HUD_HEIGHT, GRID_COLS, GRID_ROWS, TILE_SIZE.
  change (64 / 2) with 32. change (23 / 3) with 7.
  intros Hc. split; [|lia].
  destruct Hc as [<-|[<-|[<-|[<-|[]]]]]; unfold circle_within; simpl; lia.
Qed.

(** The player of a fresh game, on (0, 9): the body is a disc of radius 23
    around (32, 608). *)
Lemma draw_player_on_board_witness :
  exists cs, draw_player (new_game 0 0) = Ok cs /\
    In (mkCircle PLAYER_COLOR (32, 608) 23 0) cs /\
    circle_within (mkCircle PLAYER_COLOR (32, 608) 23 0) 0 576 64 640.
Proof.
  destruct (draw_player_on_board (new_game 0 0)
              (mkCircle PLAYER_COLOR (32, 608) 23 0) (reach_init 0 0))
    as (cs & Hcs & _ & Hwithin).
  exists cs. split; [exact Hcs|].
  assert (Hin : In (mkCircle PLAYER_COLOR (32, 608) 23 0) cs).
  { vm_compute in Hcs. injection Hcs as <-. left. reflexivity. }
  split; [exact Hin|]. exact (proj1 (Hwithin Hin)).
Defined.

(** X13. The end screen tells the truth. In a reachable state the loop
    shows no end screen exactly in phase Playing, the banner "You Win!"
    exactly in phase Won and the banner "Game Over" exactly in phase
    Lost. *)
Theorem end_screen_phase (g : Game) :
  reachable g ->
  (end_screen g = None <-> phase g = Some Playing) /\
  (end_screen g
   = Some ("You Win! 🎉"%string, "Press R to play again"%string, (40, 160, 40))
   <-> phase g = Some Won) /\
  (end_screen g
   = Some ("Game Over 💥"%string, "Press R to try again"%string, (200, 40, 40))
   <-> phase g = Some Lost).
Proof.
  intros Hreach. destruct (reachable_phase g Hreach) as [p Hp].
  unfold end_screen, draw_end_screen. rewrite Hp. unfold phase in Hp.
  destruct (running g), (win g), (lose g); try discriminate Hp;
    injection Hp as <-; simpl; repeat split; intros H;
    try reflexivity; discriminate H.
Qed.

(** The ambushed game shows "Game Over". *)
Lemma end_screen_phase_witness :
  phase ambushed = Some Lost /\
  end_screen ambushed
  = Some ("Game Over 💥"%string, "Press R to try again"%string, (200, 40, 40)).
Proof.
  split; [reflexivity|].
  apply (proj2 (proj2 (end_screen_phase ambushed
           (reach_update _ 1%float (same_draw 0 9) 0 (reach_init 0 0))))).
  reflexivity.
Defined.

(** ** The timer display *)

Lemma py_int_nonneg (x : float) (n : Z) :
  py_int (py_max 0 x) = Ok n -> 0 <= n.
Proof.
  unfold py_max, py_int. destruct (0 <? x)%float eqn:Hpos.
  - rewrite FloatAxioms.ltb_spec in Hpos.
    change (Prim2SF 0) with (S754_zero false) in Hpos.
    destruct (Prim2SF x) as [s|s| |s m e]; intros H.
    + discriminate Hpos.
    + discriminate H.
    + discriminate H.
    + injection H as <-.
      destruct s; [discriminate Hpos|]. simpl. apply Z.shiftl_nonneg. lia.
  - change (Prim2SF 0) with (S754_zero false). intros H.
    injection H as <-. lia.
Qed.

(** X14. The timer display at its ends. When the clock is at the start
    time the HUD shows 45 seconds and a full bar of 450 pixels; when the
    time budget is spent ([now - start_time >= TOTAL_TIME], the condition
    under which [update] ends the run) it shows 0 seconds and an empty
    bar; and the seconds shown are never negative. *)
Theorem hud_ends (g : Game) (now : float) (n : Z) :
  (is_finite now = true -> start_time g = now ->
   hud_seconds g now = Ok 45 /\ hud_bar_fill g now = Ok 450) /\
  ((TOTAL_TIME <=? now - start_time g)%float = true ->
   hud_seconds g now = Ok 0 /\ hud_bar_fill g now = Ok 0) /\
  (hud_seconds g now = Ok n -> 0 <= n).
Proof.
  split; [|split].
  - intros Hfin Hstart.
    assert (Hzero : (now - start_time g)%float = 0%float).
    { rewrite Hstart. apply FloatAxioms.Prim2SF_inj.
      rewrite (FloatClock.sub_diag now Hfin). reflexivity. }
    unfold hud_seconds, hud_bar_fill, hud_time_left. rewrite Hzero.
    split; reflexivity.
  - intros Hlate.
    assert (Hleft : hud_time_left g now = 0%float).
    { unfold hud_time_left, py_max. cbv zeta.
      rewrite (FloatFacts.leb_not_ltb _ _
                 (FloatFacts.sub_le_nonpos _ _ TOTAL_TIME_finite Hlate)).
      reflexivity. }
    unfold hud_seconds, hud_bar_fill. rewrite Hleft. split; reflexivity.
  - unfold hud_seconds, hud_time_left. cbv zeta. apply py_int_nonneg.
Qed.

(** A fresh game started at time 0, shown at 0 and at 45. *)
Lemma hud_ends_witness :
  hud_seconds (new_game 0 0) 0%float = Ok 45 /\
  (TOTAL_TIME <=? 45 - start_time (new_game 0 0))%float = true /\
  hud_bar_fill (new_game 0 0) 45%float = Ok 0.
Proof.
  split; [|split; [reflexivity|]].
  - exact (proj1 (proj1 (hud_ends (new_game 0 0) 0%float 0) eq_refl eq_refl)).
  - exact (proj2 (proj1 (proj2 (hud_ends (new_game 0 0) 45%float 0)) eq_refl)).
Defined.

(** ** Rounding never crosses a representable bound

    [binary_round_aux] drops digits and rounds to nearest; a value that is
    at most a binary64 number is rounded to at most that number. From this:
    a product with a factor of [0, 1] stays below the other factor, one
    minus a number of (0, 1) stays in [0, 1], and [int()] of the result
    stays below the integer bound. *)

Module FloatRound.
Import FloatFacts.

Section IterCount.
Context {A : Type} (f : A -> A) (P : Z -> A -> Prop).
Hypothesis f_step : forall k a, 0 <= k -> P k a -> P (k + 1) (f a).

Lemma iter_pos_count (p : positive) :
  forall k a, 0 <= k -> P k a -> P (k + Z.pos p) (iter_pos f p a).
Proof.
  induction p as [p IH|p IH|]; simpl; intros k a Hk Ha.
  - replace (k + Z.pos p~1) with ((k + 1 + Z.pos p) + Z.pos p) by lia.
    apply IH; [lia|]. apply IH; [lia|]. apply f_step; assumption.
  - replace (k + Z.pos p~0) with ((k + Z.pos p) + Z.pos p) by lia.
    apply IH; [lia|]. apply IH; assumption.
  - apply f_step; assumption.
Qed.
End IterCount.

(** After [k] steps of [shr_1] from the mantissa [M]: the quotient by
    [2^k], and no trace of a remainder when there is none. *)
Definition shr_inv (M k : Z) (mrs : shr_record) : Prop :=
  shr_m mrs = M / 2 ^ k /\
  (M mod 2 ^ k = 0 -> shr_r mrs = false /\ shr_s mrs = false).

Lemma shr_1_inv (M k : Z) (mrs : shr_record) :
  0 <= M -> 0 <= k -> shr_inv M k mrs -> shr_inv M (k + 1) (shr_1 mrs).
Proof.
  intros HM Hk [Hm Hrem].
  assert (Hpow : 0 < 2 ^ k) by (apply Z.pow_pos_nonneg; lia).
  assert (Hnext : 2 ^ (k + 1) = 2 ^ k * 2) by (rewrite Z.pow_add_r by lia; lia).
  assert (Hdiv : M / 2 ^ (k + 1) = M / 2 ^ k / 2)
    by (rewrite Hnext, Z.div_div by lia; reflexivity).
  assert (Hq : 0 <= M / 2 ^ k) by (apply Z.div_pos; lia).
  assert (Hclean : M mod 2 ^ (k + 1) = 0 ->
                   M mod 2 ^ k = 0 /\ (M / 2 ^ k) mod 2 = 0).
  { intros H0. rewrite Hnext in H0.
    rewrite Z.rem_mul_r in H0 by lia.
    pose proof (Z.mod_pos_bound M (2 ^ k) Hpow).
    pose proof (Z.mod_pos_bound (M / 2 ^ k) 2 ltac:(lia)).
    nia. }
  destruct mrs as [m r s]. simpl in Hm, Hrem. subst m.
  unfold shr_inv. rewrite Hdiv. unfold shr_1.
  destruct (M / 2 ^ k) as [|q|q] eqn:Eq; [| |lia].
  - simpl. split; [reflexivity|]. intros H0.
    destruct (Hclean H0) as [H1 _]. destruct (Hrem H1) as [-> ->]. auto.
  - destruct q as [q|q|]; simpl.
    + split; [rewrite Pos2Z.inj_xI; apply Z.div_unique with 1; lia|].
      intros H0. destruct (Hclean H0) as [_ H2].
      rewrite Pos2Z.inj_xI in H2.
      replace (2 * Z.pos q + 1) with (1 + Z.pos q * 2) in H2 by lia.
      rewrite Z.mod_add in H2 by lia. discriminate H2.
    + split; [rewrite Pos2Z.inj_xO; apply Z.div_unique with 0; lia|].
      intros H0. destruct (Hclean H0) as [H1 _]. destruct (Hrem H1) as [-> ->].
      auto.
    + split; [reflexivity|].
      intros H0. destruct (Hclean H0) as [_ H2]. discriminate H2.
Qed.

Lemma shr_value (M : Z) (p : positive) :
  0 <= M ->
  shr_inv M (Z.pos p) (iter_pos shr_1 p (Build_shr_record M false false)).
Proof.
  intros HM.
  apply (iter_pos_count shr_1 (shr_inv M)) with (k := 0) (p := p);
    [|lia|].
  - intros k a Hk. apply shr_1_inv; assumption.
  - unfold shr_inv. simpl. rewrite Z.div_1_r. auto.
Qed.

Lemma fexp64 (x : Z) : fexp prec emax x = Z.max (x - 53) (-1074).
Proof. reflexivity. Qed.

Lemma Zdigits2_bounds (M : Z) :
  0 < M -> 2 ^ (Zdigits2 M - 1) <= M < 2 ^ Zdigits2 M /\ 0 < Zdigits2 M.
Proof.
  destruct M as [|p|p]; try lia. intros _. simpl.
  split; [apply digits2_pos_bounds | lia].
Qed.

(** Scaling both sides by another common base keeps the comparison. *)
Lemma scaled_le_base (m e mc ec B B' : Z) :
  B <= B' -> B' <= e -> B' <= ec ->
  (m * 2 ^ (e - B) <= mc * 2 ^ (ec - B) <->
   m * 2 ^ (e - B') <= mc * 2 ^ (ec - B')).
Proof.
  intros HB He Hc.
  replace (e - B) with ((e - B') + (B' - B)) by lia.
  replace (ec - B) with ((ec - B') + (B' - B)) by lia.
  rewrite !Z.pow_add_r by lia.
  assert (Hp : 0 < 2 ^ (B' - B)) by (apply Z.pow_pos_nonneg; lia).
  split; intros H; nia.
Qed.

(** The first shift and rounding of [binary_round_aux]: [n] digits are
    dropped, and the mantissa is the quotient or one more, the quotient
    itself when nothing is lost. *)
Lemma round_step (M E : Z) :
  0 <= M ->
  let n := Z.max 0 (fexp prec emax (Zdigits2 M + E) - E) in
  let sh := shr_fexp prec emax M E loc_Exact in
  let m1 := round_nearest_even (shr_m (fst sh)) (loc_of_shr_record (fst sh)) in
  snd sh = E + n /\
  M / 2 ^ n <= m1 <= M / 2 ^ n + 1 /\
  (M mod 2 ^ n = 0 -> m1 = M / 2 ^ n).
Proof.
  intros HM. cbv zeta. unfold shr_fexp, shr.
  destruct (fexp prec emax (Zdigits2 M + E) - E) as [|p|p] eqn:Hn.
  - simpl. rewrite Z.div_1_r. repeat split; lia.
  - change (shr_record_of_loc M loc_Exact) with (Build_shr_record M false false).
    simpl fst. simpl snd. rewrite Z.max_r by lia.
    destruct (shr_value M p HM) as [Hm Hrem].
    destruct (iter_pos shr_1 p (Build_shr_record M false false)) as [m r s].
    simpl in Hm, Hrem. subst m. simpl shr_m.
    split; [reflexivity|]. split.
    + destruct r, s; simpl; try lia; destruct (Z.even _); lia.
    + intros H0. destruct (Hrem H0) as [-> ->]. reflexivity.
  - simpl. rewrite Z.div_1_r. repeat split; lia.
Qed.

(** The renormalising shift never raises the value. *)
Lemma second_shift (m1 e1 : Z) :
  0 <= m1 ->
  let n := Z.max 0 (fexp prec emax (Zdigits2 m1 + e1) - e1) in
  let sh := shr_fexp prec emax m1 e1 loc_Exact in
  snd sh = e1 + n /\ shr_m (fst sh) = m1 / 2 ^ n.
Proof.
  intros HM. cbv zeta. unfold shr_fexp, shr.
  destruct (fexp prec emax (Zdigits2 m1 + e1) - e1) as [|p|p] eqn:Hn.
  - simpl. rewrite Z.div_1_r. split; [lia | reflexivity].
  - change (shr_record_of_loc m1 loc_Exact) with (Build_shr_record m1 false false).
    simpl fst. simpl snd. rewrite Z.max_r by lia.
    destruct (shr_value m1 p HM) as [Hm _]. split; [reflexivity | exact Hm].
  - simpl. rewrite Z.div_1_r. split; [lia | reflexivity].
Qed.

(** A mantissa of [d] digits at an exponent too high is above every
    binary64 number at exponent [ec]. *)
Lemma too_big (m d e mc ec B : Z) :
  1 <= d -> 2 ^ (d - 1) <= m -> 0 < mc < 2 ^ 53 ->
  B <= e -> B <= ec -> ec + 53 <= d - 1 + e ->
  ~ (m * 2 ^ (e - B) <= mc * 2 ^ (ec - B)).
Proof.
  intros Hd Hm Hmc He Hec Hbig Hle.
  assert (H1 : 2 ^ (ec + 53 - B) <= 2 ^ (d - 1) * 2 ^ (e - B)).
  { rewrite <- Z.pow_add_r by lia. apply Z.pow_le_mono_r; lia. }
  assert (H2 : 2 ^ (ec + 53 - B) = 2 ^ 53 * 2 ^ (ec - B)).
  { rewrite <- Z.pow_add_r by lia. f_equal. lia. }
  assert (Hp : 0 < 2 ^ (ec - B)) by (apply Z.pow_pos_nonneg; lia).
  assert (Hq : 0 < 2 ^ (e - B)) by (apply Z.pow_pos_nonneg; lia).
  nia.
Qed.

Definition rounds_below (B : Z) (mc : positive) (ec E : Z) (x : spec_float) : Prop :=
  match x with
  | S754_zero s => s = false
  | S754_finite s m e =>
      s = false /\ E <= e /\ Z.pos m * 2 ^ (e - B) <= Z.pos mc * 2 ^ (ec - B)
  | _ => False
  end.

Lemma binary_round_aux_le (M E B : Z) (mc : positive) (ec : Z) :
  0 <= M -> E <= 971 -> B <= E -> B <= ec ->
  bounded prec emax mc ec = true ->
  M * 2 ^ (E - B) <= Z.pos mc * 2 ^ (ec - B) ->
  rounds_below B mc ec E (binary_round_aux prec emax false M E loc_Exact).
Proof.
  intros HM HE HB HBc Hbound Hle.
  destruct (bounded_digits mc ec Hbound) as (Hmc & Hecmin & _).
  assert (Hecmax : ec <= 971).
  { unfold bounded in Hbound. apply andb_prop in Hbound.
    destruct Hbound as [_ H]. apply Z.leb_le in H. exact H. }
  unfold binary_round_aux.
  pose proof (round_step M E HM) as Hstep. cbv zeta in Hstep.
  destruct (shr_fexp prec emax M E loc_Exact) as [mrs' e'].
  simpl fst in Hstep. simpl snd in Hstep.
  destruct Hstep as (He' & Hm1 & Hexact).
  set (m1 := round_nearest_even (shr_m mrs') (loc_of_shr_record mrs')) in *.
  set (n1 := Z.max 0 (fexp prec emax (Zdigits2 M + E) - E)) in *.
  assert (Hn1 : 0 <= n1) by (unfold n1; lia).
  assert (Hpn1 : 0 < 2 ^ n1) by (apply Z.pow_pos_nonneg; lia).
  assert (Hq1 : 0 <= M / 2 ^ n1) by (apply Z.div_pos; lia).
  assert (Hm1pos : 0 <= m1) by lia.
  (* the value after the first rounding is still below the bound, and the
     exponent is in range *)
  assert (K1 : m1 * 2 ^ (e' - B) <= Z.pos mc * 2 ^ (ec - B) /\
               (0 < m1 -> e' <= 971)).
  { destruct (Z.eq_dec M 0) as [->|HM0].
    { assert (m1 = 0) by (rewrite Hexact; [apply Z.div_0_l; lia | apply Z.mod_0_l; lia]).
      split; [|lia]. rewrite H, Z.mul_0_l.
      apply Z.mul_nonneg_nonneg; [lia|]. apply Z.pow_nonneg. lia. }
    destruct (Zdigits2_bounds M ltac:(lia)) as [HdM Hdpos].
    destruct (Z.eq_dec n1 0) as [Hz|Hnz].
    - rewrite Hz in *. rewrite Z.pow_0_r, Z.div_1_r in *.
      assert (m1 = M) by (apply Hexact; apply Z.mod_1_r).
      replace e' with E by lia. split; [rewrite H; exact Hle | lia].
    - assert (He1 : e' = fexp prec emax (Zdigits2 M + E)) by (unfold n1 in *; lia).
      rewrite fexp64 in He1.
      destruct (Z_lt_le_dec ec e') as [Hlow|Hhigh].
      + exfalso.
        assert (He1' : e' = Zdigits2 M + E - 53) by lia.
        apply (too_big M (Zdigits2 M) E (Z.pos mc) ec B); try lia.
      + split; [|lia].
        set (K := Z.pos mc * 2 ^ (ec - e')).
        assert (Hpk : 0 < 2 ^ (ec - e')) by (apply Z.pow_pos_nonneg; lia).
        assert (HP : 0 < 2 ^ (E - B)) by (apply Z.pow_pos_nonneg; lia).
        assert (Hrhs : Z.pos mc * 2 ^ (ec - B) = K * 2 ^ n1 * 2 ^ (E - B)).
        { unfold K. replace (ec - B) with ((ec - e') + n1 + (E - B)) by lia.
          rewrite !Z.pow_add_r by lia. ring. }
        assert (HMK : M <= K * 2 ^ n1) by (rewrite Hrhs in Hle; nia).
        assert (Hm1K : m1 <= K).
        { pose proof (Z.div_mod M (2 ^ n1) ltac:(lia)) as Hdm.
          pose proof (Z.mod_pos_bound M (2 ^ n1) Hpn1) as Hr.
          destruct (Z.eq_dec (M mod 2 ^ n1) 0) as [H0|H0].
          - rewrite (Hexact H0). nia.
          - assert (M / 2 ^ n1 < K) by nia. lia. }
        rewrite Hrhs. replace (e' - B) with (n1 + (E - B)) by lia.
        rewrite Z.pow_add_r by lia. nia. }
  destruct K1 as [K1 K1e].
  pose proof (second_shift m1 e' Hm1pos) as Hsec. cbv zeta in Hsec.
  destruct (shr_fexp prec emax m1 e' loc_Exact) as [mrs'' e''].
  simpl fst in Hsec. simpl snd in Hsec. destruct Hsec as (He'' & Hm'').
  set (n2 := Z.max 0 (fexp prec emax (Zdigits2 m1 + e') - e')) in *.
  assert (Hn2 : 0 <= n2) by (unfold n2; lia).
  assert (Hpn2 : 0 < 2 ^ n2) by (apply Z.pow_pos_nonneg; lia).
  rewrite Hm''.
  destruct (m1 / 2 ^ n2) as [|m|m] eqn:Hq2.
  - reflexivity.
  - assert (Hm1gt : 0 < m1).
    { destruct (Z.eq_dec m1 0) as [H0|H0]; [|lia].
      rewrite H0, Z.div_0_l in Hq2 by lia. discriminate Hq2. }
    assert (Hfloor : Z.pos m * 2 ^ n2 <= m1).
    { rewrite <- Hq2. rewrite Z.mul_comm. apply Z.mul_div_le. lia. }
    assert (Hval : Z.pos m * 2 ^ (e'' - B) <= Z.pos mc * 2 ^ (ec - B)).
    { replace (e'' - B) with (n2 + (e' - B)) by lia.
      rewrite Z.pow_add_r by lia.
      assert (0 < 2 ^ (e' - B)) by (apply Z.pow_pos_nonneg; lia). nia. }
    assert (He''max : e'' <= 971).
    { destruct (Z.eq_dec n2 0) as [Hz|Hnz]; [lia|].
      destruct (Z_le_gt_dec e'' 971) as [Hok|Hbig]; [exact Hok|]. exfalso.
      destruct (Zdigits2_bounds m1 Hm1gt) as [Hd1 Hd1pos].
      assert (He2 : e'' = fexp prec emax (Zdigits2 m1 + e')) by (unfold n2 in *; lia).
      rewrite fexp64 in He2.
      apply (too_big m1 (Zdigits2 m1) e' (Z.pos mc) ec B); try lia. }
    apply Z.leb_le in He''max. change (emax - prec) with 971. rewrite He''max.
    simpl. split; [reflexivity|]. split; [lia | exact Hval].
  - pose proof (Z.div_pos m1 (2 ^ n2) Hm1pos Hpn2). lia.
Qed.

(** Between [+0] and 1. *)
Definition SFunit (x : spec_float) : Prop :=
  match x with
  | S754_zero _ => True
  | S754_finite false m e => e <= 0 /\ Z.pos m <= 2 ^ (- e)
  | _ => False
  end.

(** Between [+0] and the integer [C]. *)
Definition SFupto (C : Z) (x : spec_float) : Prop :=
  match x with
  | S754_zero _ => True
  | S754_finite false m e =>
      (0 <= e /\ Z.pos m * 2 ^ e <= C) \/ (e <= 0 /\ Z.pos m <= C * 2 ^ (- e))
  | _ => False
  end.

Lemma shl_align_min (m : positive) (e ez : Z) :
  snd (shl_align m e ez) = Z.min e ez /\
  Z.pos (fst (shl_align m e ez)) = Z.pos m * 2 ^ (e - Z.min e ez).
Proof.
  unfold shl_align. destruct (ez - e) as [|d|d] eqn:Hd; simpl.
  - rewrite Z.min_l by lia. rewrite Z.sub_diag, Z.pow_0_r. lia.
  - rewrite Z.min_l by lia. rewrite Z.sub_diag, Z.pow_0_r. lia.
  - rewrite Z.min_r by lia. split; [reflexivity|].
    rewrite iter_xO_pow2. replace (e - ez) with (- (ez - e)) by lia.
    rewrite Hd. reflexivity.
Qed.

(** A valid number strictly between 0 and 1. *)
Lemma below_one (x : spec_float) :
  valid_binary x = true ->
  SFltb (S754_zero false) x = true ->
  SFltb x (S754_finite false 4503599627370496 (-52)) = true ->
  exists m e, x = S754_finite false m e /\ e < -52 /\ Z.pos m < 2 ^ 53 /\
              bounded prec emax m e = true.
Proof.
  intros Hv Hpos Hlt.
  destruct x as [s|s| |s m e]; try discriminate Hpos.
  - destruct s; discriminate.
  - destruct s; [discriminate Hpos|].
    simpl in Hv. destruct (bounded_digits m e Hv) as (Hhi & Hlo & Hnorm).
    exists m, e. split; [reflexivity|].
    unfold SFltb, SFcompare in Hlt.
    destruct (Z.compare_spec e (-52)) as [E|E|E]; try discriminate Hlt.
    + exfalso. subst e. specialize (Hnorm ltac:(lia)).
      assert (C : (m < 4503599627370496)%positive).
      { unfold Pos.lt, Pos.compare.
        destruct (Pos.compare_cont Eq m 4503599627370496);
          try discriminate Hlt.
        reflexivity. }
      apply Pos2Z.pos_lt_pos in C.
      change (2 ^ 52) with (Z.pos 4503599627370496) in Hnorm. lia.
    + repeat split; assumption.
Qed.

(** Rounding a product with a factor of at most 1 stays below the other
    factor. *)
Lemma SFmul_unit (mx : positive) (ex : Z) (y : spec_float) (C : Z) :
  bounded prec emax mx ex = true -> ex <= 0 -> Z.pos mx = C * 2 ^ (- ex) ->
  SFunit y ->
  SFupto C (SF64mul (S754_finite false mx ex) y).
Proof.
  intros Hb Hex HC Hy.
  destruct y as [s|s| |s my ey]; try contradiction.
  - exact I.
  - destruct s; [contradiction|]. destruct Hy as [Hey Hmy].
    unfold SF64mul, SFmul. simpl xorb.
    assert (Hexmax : ex <= 971).
    { unfold bounded in Hb. apply andb_prop in Hb. destruct Hb as [_ H].
      apply Z.leb_le in H. exact H. }
    assert (Hp : 0 < 2 ^ (- ey)) by (apply Z.pow_pos_nonneg; lia).
    pose proof (binary_round_aux_le (Z.pos (mx * my)) (ex + ey) (ex + ey) mx ex
                  ltac:(lia) ltac:(lia) ltac:(lia) ltac:(lia) Hb) as Hround.
    rewrite Z.sub_diag, Z.pow_0_r in Hround.
    replace (ex - (ex + ey)) with (- ey) in Hround by lia.
    specialize (Hround ltac:(rewrite Pos2Z.inj_mul; nia)).
    destruct (binary_round_aux prec emax false (Z.pos (mx * my)) (ex + ey) loc_Exact)
      as [s|s| |s m e]; cbn [rounds_below] in Hround; try contradiction.
    + exact I.
    + destruct Hround as (-> & He & Hval). cbn [SFupto].
      assert (HB : 0 <= - (ex + ey)) by lia.
      assert (Hc : Z.pos mx * 2 ^ (- ey) = C * 2 ^ (- (ex + ey))).
      { rewrite HC. replace (- (ex + ey)) with (- ex + - ey) by lia.
        rewrite Z.pow_add_r by lia. ring. }
      replace (ex - (ex + ey)) with (- ey) in Hval by lia.
      rewrite Hc in Hval.
      destruct (Z_le_gt_dec 0 e) as [Hpos|Hneg].
      * left. split; [exact Hpos|].
        replace (e - (ex + ey)) with (e + - (ex + ey)) in Hval by lia.
        rewrite Z.pow_add_r in Hval by lia.
        assert (0 < 2 ^ (- (ex + ey))) by (apply Z.pow_pos_nonneg; lia).
        nia.
      * right. split; [lia|].
        replace (- (ex + ey)) with ((e - (ex + ey)) + - e) in Hval by lia.
        rewrite Z.pow_add_r in Hval by lia.
        assert (0 < 2 ^ (e - (ex + ey))) by (apply Z.pow_pos_nonneg; lia).
        nia.
Qed.

(** [int()] of a number between 0 and [C]. *)
Lemma py_int_upto (C : Z) (x : float) :
  0 <= C -> SFupto C (Prim2SF x) ->
  exists n, py_int x = Ok n /\ 0 <= n <= C.
Proof.
  intros HC Hx. unfold py_int.
  destruct (Prim2SF x) as [s|s| |s m e]; try contradiction.
  - exists 0. split; [reflexivity | lia].
  - destruct s; [contradiction|]. simpl cond_Zopp.
    exists (Z.shiftl (Z.pos m) e). split; [reflexivity|].
    split; [apply Z.shiftl_nonneg; lia|].
    destruct Hx as [[He Hv]|[He Hv]].
    + rewrite Z.shiftl_mul_pow2 by lia. exact Hv.
    + rewrite Z.shiftl_div_pow2 by lia.
      apply Z.div_le_upper_bound; [apply Z.pow_pos_nonneg; lia|]. lia.
Qed.

(** One minus a number strictly between 0 and 1 is between 0 and 1. *)
Lemma SFsub_one (m : positive) (e : Z) :
  bounded prec emax m e = true -> e < -52 -> Z.pos m < 2 ^ 53 ->
  SFunit (SF64sub (S754_finite false 4503599627370496 (-52))
                  (S754_finite false m e)).
Proof.
  intros Hb He Hm. unfold SF64sub, SFsub.
  rewrite Z.min_r by lia.
  destruct (shl_align_min 4503599627370496 (-52) e) as [_ H1].
  destruct (shl_align_min m e e) as [_ H2].
  rewrite Z.min_r in H1 by lia. rewrite Z.min_id, Z.sub_diag, Z.pow_0_r in H2.
  simpl cond_Zopp. rewrite H1, H2, Z.mul_1_r.
  change (Z.pos 4503599627370496) with (2 ^ 52).
  rewrite <- Z.pow_add_r by lia. replace (52 + (-52 - e)) with (- e) by lia.
  assert (Hbig : 2 ^ 53 <= 2 ^ (- e)) by (apply Z.pow_le_mono_r; lia).
  destruct (2 ^ (- e) - Z.pos m) as [|p|p] eqn:Hdiff; try lia.
  unfold binary_normalize, binary_round.
  destruct (shl_align_min p e (fexp prec emax (Z.pos (digits2_pos p) + e)))
    as [Hez Hmz].
  destruct (shl_align p e _) as [mz ez]. cbn [fst snd] in Hez, Hmz.
  rewrite <- Hez in Hmz.
  assert (Hezle : ez <= e) by lia.
  pose proof (binary_round_aux_le (Z.pos mz) ez ez 4503599627370496 (-52)
                ltac:(lia) ltac:(lia) ltac:(lia) ltac:(lia) eq_refl) as Hround.
  assert (Hone : Z.pos 4503599627370496 * 2 ^ (-52 - ez) = 2 ^ (- ez)).
  { change (Z.pos 4503599627370496) with (2 ^ 52).
    rewrite <- Z.pow_add_r by lia. f_equal. lia. }
  rewrite Z.sub_diag, Z.pow_0_r, Hone in Hround.
  assert (Hval : Z.pos mz * 1 <= 2 ^ (- ez)).
  { rewrite Hmz.
    replace (- ez) with (- e + (e - ez)) by lia.
    rewrite Z.pow_add_r by lia.
    assert (0 < 2 ^ (e - ez)) by (apply Z.pow_pos_nonneg; lia). nia. }
  specialize (Hround Hval).
  destruct (binary_round_aux prec emax false (Z.pos mz) ez loc_Exact)
    as [s|s| |s m' e']; cbn [rounds_below] in Hround; try contradiction.
  - exact I.
  - destruct Hround as (-> & He' & Hv). cbn [SFunit]. rewrite Hone in Hv.
    assert (Hp : 0 < 2 ^ (e' - ez)) by (apply Z.pow_pos_nonneg; lia).
    destruct (Z_le_gt_dec e' 0) as [Hle|Hgt].
    + split; [exact Hle|].
      replace (- ez) with ((e' - ez) + - e') in Hv by lia.
      rewrite Z.pow_add_r in Hv by lia. nia.
    + exfalso.
      assert (2 ^ (- ez) < 2 ^ (e' - ez)) by (apply Z.pow_lt_mono_r; lia).
      nia.
Qed.

End FloatRound.

(** ** Opacity in range *)

(** A float strictly between 0 and 1, as the comparisons of the source
    test it. *)
Lemma fraction_SF (r : float) :
  (0 <? r)%float = true -> (r <? 1)%float = true ->
  exists m e, Prim2SF r = S754_finite false m e /\ e < -52 /\
              Z.pos m < 2 ^ 53 /\ bounded prec emax m e = true.
Proof.
  intros Hpos Hlt. rewrite FloatAxioms.ltb_spec in Hpos, Hlt.
  apply FloatRound.below_one;
    [apply FloatAxioms.Prim2SF_valid | exact Hpos | exact Hlt].
Qed.


(** [int(C * x)] for a float [x] of [0, 1] and a float constant [C] that is
    an integer: never an exception, and a value of [0, C]. *)
Lemma py_int_scaled (c x : float) (mc : positive) (ec C : Z) :
  Prim2SF c = S754_finite false mc ec ->
  ec <= 0 -> Z.pos mc = C * 2 ^ (- ec) -> 0 <= C ->
  FloatRound.SFunit (Prim2SF x) ->
  exists n, py_int (c * x)%float = Ok n /\ 0 <= n <= C.
Proof.
  intros Hc Hec HC HC0 Hx. apply FloatRound.py_int_upto; [exact HC0|].
  rewrite FloatAxioms.mul_spec, Hc.
  apply FloatRound.SFmul_unit; try assumption.
  pose proof (FloatAxioms.Prim2SF_valid c) as Hv. rewrite Hc in Hv. exact Hv.
Qed.

(** The opacity of a hazard whose lifetime is not zero is an integer of
    [0, 255]. *)
Lemma alpha_in_range (q : Qubit) (now : float) :
  (lifetime q =? 0)%float = false ->
  exists n, alpha q now = Ok n /\ 0 <= n <= 255.
Proof.
  intros Hlife. unfold alpha, py_div. rewrite Hlife. cbv zeta. simpl bind.
  set (r := (age q now / lifetime q)%float).
  unfold py_min, py_max.
  destruct (r <? 1)%float eqn:Hlt1.
  - destruct (0 <? r)%float eqn:Hgt0.
    + apply (py_int_scaled 255 (1 - r) 8972014882652160 (-45) 255);
        try reflexivity; try lia.
      rewrite FloatAxioms.sub_spec.
      destruct (fraction_SF r Hgt0 Hlt1) as (m & e & -> & He & Hm & Hb).
      apply FloatRound.SFsub_one; assumption.
    + exists 255. split; [reflexivity | lia].
  - exists 0. split; [reflexivity | lia].
Qed.

(** X15. Opacity in range. For a hazard whose lifetime is not zero [alpha]
    raises no exception at any clock reading, a NaN or an infinity
    included, and returns an integer of 0..255; the glow alpha
    [min(120, alpha // 2 + 60)] that [draw_qubits] derives from it lies in
    60..120. *)
Theorem alpha_range (q : Qubit) (now : float) :
  (lifetime q =? 0)%float = false ->
  exists n, alpha q now = Ok n /\ 0 <= n <= 255 /\
            60 <= Z.min 120 (n / 2 + 60) <= 120.
Proof.
  intros Hlife. destruct (alpha_in_range q now Hlife) as (n & Hn & Hr).
  exists n. split; [exact Hn|]. split; [exact Hr|].
  assert (0 <= n / 2) by (apply Z.div_pos; lia). lia.
Qed.

(** The hazard born at 0, a third of its lifetime later. *)
Lemma alpha_range_witness :
  (lifetime old_hazard =? 0)%float = false /\
  exists n, alpha old_hazard 0.4%float = Ok n /\ 0 <= n <= 255.
Proof.
  split; [reflexivity|].
  destruct (alpha_range old_hazard 0.4%float eq_refl) as (n & Hn & Hr & _).
  exists n. split; [exact Hn | exact Hr].
Defined.

Lemma default_lifetime_nonzero : (QUBIT_LIFETIME =? 0)%float = false.
Proof. reflexivity. Qed.

(** With lifetimes other than zero the alpha loop of [draw_qubits] runs
    through: one entry per alive hazard, in order, each in range. *)
Lemma draw_qubits_alphas_ok (qs : list Qubit) (now : float) :
  (forall q, In q qs -> (lifetime q =? 0)%float = false) ->
  exists l,
    draw_qubits_alphas qs now = Ok l /\
    map (fun x => fst (fst x)) l
    = map grid_pos (filter (fun q => is_alive q now) qs) /\
    (forall t glow core, In (t, glow, core) l ->
       60 <= glow <= 120 /\ 0 <= core <= 255).
Proof.
  induction qs as [|q rest IH]; intros Hlife.
  - exists []. split; [reflexivity|]. split; [reflexivity|]. intros t a b [].
  - destruct IH as (l & Hl & Hmap & Hrange).
    { intros q' Hq'. apply Hlife. right. exact Hq'. }
    simpl. destruct (is_alive q now) eqn:Halive; simpl negb; cbv iota.
    + destruct (alpha_in_range q now (Hlife q (or_introl eq_refl)))
        as (n & Hn & Hr).
      rewrite Hn, Hl. simpl bind.
      eexists. split; [reflexivity|]. split; [simpl; rewrite Hmap; reflexivity|].
      intros t glow core [Heq|Hin]; [|apply (Hrange t glow core Hin)].
      injection Heq as _ <- <-.
      assert (0 <= n / 2) by (apply Z.div_pos; lia). lia.
    + exists l. split; [exact Hl|]. split; [exact Hmap | exact Hrange].
Qed.

(** X16. Hazards can always be drawn. In a reachable state, at any clock
    reading, the alpha loop of [draw_qubits] raises no exception (no
    hazard has lifetime zero), draws exactly the hazards alive at that
    time, at most [MAX_ACTIVE_QUBITS] of them, none on the goal tile, and
    every core alpha lies in 0..255 and every glow alpha in 60..120. *)
Theorem draw_qubits_in_range (g : Game) (now : float) :
  reachable g ->
  exists l,
    draw_qubits_alphas (qubits g) now = Ok l /\
    map (fun x => fst (fst x)) l
    = map grid_pos (filter (fun q => is_alive q now) (qubits g)) /\
    (length l <= MAX_ACTIVE_QUBITS)%nat /\
    (forall t glow core, In (t, glow, core) l ->
       60 <= glow <= 120 /\ 0 <= core <= 255 /\
       in_bounds t = true /\ t <> goal g).
Proof.
  intros Hreach. destruct (reachable_hazards g Hreach) as [Hplaced _].
  destruct (draw_qubits_alphas_ok (qubits g) now) as (l & Hl & Hmap & Hrange).
  { intros q Hq. destruct (Hplaced q Hq) as (_ & _ & ->).
    exact default_lifetime_nonzero. }
  exists l. split; [exact Hl|]. split; [exact Hmap|]. split.
  - rewrite <- (length_map (fun x => fst (fst x))), Hmap, length_map.
    eapply Nat.le_trans; [apply filter_length_le|].
    apply reachable_capped. exact Hreach.
  - intros t glow core Hin. destruct (Hrange t glow core Hin) as [Hg Hc].
    split; [exact Hg|]. split; [exact Hc|].
    assert (Ht : In t (map grid_pos (filter (fun q => is_alive q now) (qubits g)))).
    { rewrite <- Hmap. apply in_map_iff. exists (t, glow, core).
      split; [reflexivity | exact Hin]. }
    apply in_map_iff in Ht. destruct Ht as (q & <- & Hq).
    apply filter_In in Hq. destruct (Hplaced q (proj1 Hq)) as (Hb & Hne & _).
    split; assumption.
Qed.

(** A hazard spawned on (3, 4) by the update at time 1, drawn at time
    1.3. *)
Lemma draw_qubits_in_range_witness :
  exists l,
    draw_qubits_alphas
      (qubits (update (new_game 0 0) 1%float (same_draw 3 4) 0)) 1.3%float
    = Ok l /\ (length l <= MAX_ACTIVE_QUBITS)%nat.
Proof.
  destruct (draw_qubits_in_range
              (update (new_game 0 0) 1%float (same_draw 3 4) 0) 1.3%float
              (reach_update _ 1%float (same_draw 3 4) 0 (reach_init 0 0)))
    as (l & Hl & _ & Hlen & _).
  exists l. split; [exact Hl | exact Hlen].
Defined.

(** ** The timer display in range *)

Module FloatBelow.
Import FloatFacts FloatRound.




End FloatBelow.


